(** * Voronoi cells: a shallow embedding of [script.js]

    The page keeps a mutable array of points, redraws a bounded Voronoi
    diagram through d3 after every change, colours the cells by area and
    exports the drawing as an SVG document.

    Conventions of the embedding:
    - JavaScript numbers are exact rationals ([Q]); [None] stands for
      [undefined]/[NaN] where the script can produce one. Rounding is not
      modelled, so the properties below are those that do not turn on it
      (orders, bounds, values that are exact on doubles as well);
    - a DOM element is a record carrying an object identity ([el_id]),
      its bound datum and the attributes and listeners the script sets;
      a layer ([<g>]) is the list of its children in document order;
    - listeners are closures of the script, kept as data (the values they
      capture) and run by the dispatch functions below;
    - d3's own functions (polygon area, min/max, linear scale, HSL
      interpolation, keyed data join, listener dispatch) follow the d3
      sources; the Delaunay/Voronoi construction is a parameter. *)

From Stdlib Require Import QArith Qabs Qround Lqa Ascii String.
From stdpp Require Import gmap list strings pretty.

Local Open Scope Q_scope.

(** ** Results of JavaScript code that may throw *)

Inductive exn := TypeError | NotFoundError.

Inductive result (A : Type) :=
| Ok (a : A)
| Throw (e : exn).
Arguments Ok {A} a.
Arguments Throw {A} e.

Global Instance result_ret : MRet result := fun A a => Ok a.
Global Instance result_bind : MBind result := fun A B k r =>
  match r with
  | Ok a => k a
  | Throw e => Throw e
  end.

(** ** Geometry: [d3.polygonArea] and [calculateArea] *)

Definition point := (Q * Q)%type.
Definition polygon := list point.

(** The loop of [d3.polygonArea]: [b] is the previous vertex. *)
Fixpoint polygonArea_loop (b : point) (rest : polygon) (area : Q) : Q :=
  match rest with
  | [] => area
  | b' :: rest' =>
      polygonArea_loop b' rest' (area + (snd b * fst b' - fst b * snd b'))
  end.

Definition polygonArea (pg : polygon) : Q :=
  polygonArea_loop (List.last pg (0, 0)) pg 0 / 2.

(** [d3.polygonArea(x)] reads [x.length]: on [null]/[undefined] it throws. *)
Definition js_polygonArea (pg : option polygon) : result Q :=
  match pg with
  | Some p => Ok (polygonArea p)
  | None => Throw TypeError
  end.

(** [function calculateArea(polygon)] *)
Definition calculateArea (pg : option polygon) : result Q :=
  a ← js_polygonArea pg; mret (Qabs a).

(** ** [d3.min], [d3.max] *)

Definition min_step (mn : option Q) (value : Q) : option Q :=
  match mn with
  | None => Some value
  | Some m => if Qlt_le_dec value m then Some value else Some m
  end.

Definition d3_min (values : list Q) : option Q := fold_left min_step values None.

Definition max_step (mx : option Q) (value : Q) : option Q :=
  match mx with
  | None => Some value
  | Some m => if Qlt_le_dec m value then Some value else Some m
  end.

Definition d3_max (values : list Q) : option Q := fold_left max_step values None.

(** Comparisons on numbers that may be [undefined]. *)
Definition js_lt (a b : option Q) : bool :=
  match a, b with
  | Some x, Some y => if Qlt_le_dec x y then true else false
  | _, _ => false
  end.

Definition js_strict_eq (a b : option Q) : bool :=
  match a, b with
  | Some x, Some y => Qeq_bool x y
  | None, None => true
  | _, _ => false
  end.

Definition js_add1 (a : option Q) : option Q :=
  match a with Some x => Some (x + 1) | None => None end.

(** ** [d3.scaleLinear().range([0, 1])] *)

Definition normalize (a b x : Q) : Q :=
  if Qeq_bool (b - a) 0 then 1 # 2 else (x - a) / (b - a).

Definition interpolateNumber (a b t : Q) : Q := a * (1 - t) + b * t.

Definition scaleLinear (d0 d1 r0 r1 x : Q) : Q :=
  if Qlt_le_dec d1 d0
  then interpolateNumber r1 r0 (normalize d1 d0 x)
  else interpolateNumber r0 r1 (normalize d0 d1 x).

(** [colorScale], as configured on line 15, with the domain last set. *)
Definition colorScale (domain : option Q * option Q) (x : option Q) : option Q :=
  match domain, x with
  | (Some d0, Some d1), Some v => Some (scaleLinear d0 d1 0 1 v)
  | _, _ => None
  end.

(** ** [d3.interpolateHsl] *)

Record hsl := Hsl { hue : option Q; saturation : option Q; lightness : option Q }.

Definition js_round (x : Q) : Q := inject_Z (Qfloor (x + (1 # 2))).

(** [constant(a)] when the two ends agree, [linear(a, d)] otherwise; the
    hue takes the shorter way round the circle. *)
Definition interpolate_hue (a b : Q) (t : option Q) : option Q :=
  let d := b - a in
  if Qeq_bool d 0 then Some a
  else
    let d' := if Qlt_le_dec 180 d then d - 360 * js_round (d / 360)
              else if Qlt_le_dec d (-180) then d - 360 * js_round (d / 360)
              else d in
    option_map (fun t => a + t * d') t.

Definition nogamma (a b : Q) (t : option Q) : option Q :=
  let d := b - a in
  if Qeq_bool d 0 then Some a else option_map (fun t => a + t * d) t.

Definition interpolateHsl (h0 s0 l0 h1 s1 l1 : Q) (t : option Q) : hsl :=
  {| hue := interpolate_hue h0 h1 t;
     saturation := nogamma s0 s1 t;
     lightness := nogamma l0 l1 t |}.

(** [colorInterpolator]: from [hsl(0, 60%, 70%)] to [hsl(120, 60%, 70%)]. *)
Definition colorInterpolator : option Q -> hsl :=
  interpolateHsl 0 (60 / 100) (70 / 100) 120 (60 / 100) (70 / 100).

(** ** [Number.prototype.toFixed] *)

Definition pad_left (width : nat) (digits : string) : string :=
  String.concat "" (replicate (width - String.length digits) "0"%string) +:+ digits.

(** The nearest multiple of [10^-digits], the larger one on a tie, written
    with exactly [digits] decimals (numbers below [1e21]). *)
Definition toFixed (x : Q) (digits : nat) : string :=
  let scale := (10 ^ Z.of_nat digits)%Z in
  let n := Qfloor (Qabs x * inject_Z scale + (1 # 2)) in
  (if Qlt_le_dec x 0 then "-" else "")
    +:+ pretty (n / scale)%Z
    +:+ (if decide (digits = 0%nat) then ""
         else "." +:+ pad_left digits (pretty (n mod scale)%Z)).

(** ** The DOM and the page state *)

Inductive tagName := TagPath | TagCircle.

Definition tag_string (t : tagName) : string :=
  match t with TagPath => "path" | TagCircle => "circle" end.

(** An entry of [pointsWithIndex]: [{ point, index }]. *)
Record datum := Datum { d_point : point; d_index : nat }.

Record element := Element {
  el_id : nat;                     (* object identity of the node *)
  el_tag : tagName;
  el_data : datum;                 (* [__data__] *)
  attr_d : option string;
  attr_fill : option hsl;
  attr_stroke : option string;
  attr_cx : option Q;
  attr_cy : option Q;
  attr_r : option Q;
  on_mouseover : option (list Q);  (* the listener of lines 92/114 and the [cellAreas] it closes over *)
  on_mousemove : bool;
  on_mouseout : bool;
  on_click : bool                  (* the listener of line 145 *)
}.

Definition set_data (d : datum) (el : element) : element :=
  Element (el_id el) (el_tag el) d (attr_d el) (attr_fill el) (attr_stroke el)
          (attr_cx el) (attr_cy el) (attr_r el)
          (on_mouseover el) (on_mousemove el) (on_mouseout el) (on_click el).

Record tooltip_state := Tooltip {
  tt_visibility : string;
  tt_text : string;
  tt_top : option Q;
  tt_left : option Q
}.

Record state := State {
  points : list point;
  cellLayer : list element;
  pointLayer : list element;
  colorDomain : option Q * option Q;   (* the domain of [colorScale] *)
  tooltip : tooltip_state;
  fresh : nat                          (* identities handed out so far *)
}.

(** ** The keyed data join of d3-selection ([selection.data(data, key)]) *)

(** [d => d.index]; the join compares the keys as strings, which for
    array indices is the comparison of the numbers. *)
Definition key (d : datum) : nat := d_index d.

(** First loop of [bindKey]: index the nodes by key, later duplicates go
    to [exit]. *)
Fixpoint bindKey_nodes (group : list element) (nodeByKeyValue : gmap nat element)
  : gmap nat element * list (option element) :=
  match group with
  | [] => (nodeByKeyValue, [])
  | node :: rest =>
      let k := key (el_data node) in
      match nodeByKeyValue !! k with
      | Some _ =>
          let '(m, exit) := bindKey_nodes rest nodeByKeyValue in
          (m, Some node :: exit)
      | None =>
          let '(m, exit) := bindKey_nodes rest (<[k := node]> nodeByKeyValue) in
          (m, None :: exit)
      end
  end.

(** Second loop: a datum whose key names a node updates it (and takes the
    key out of the map); any other datum enters. *)
Fixpoint bindKey_data (data : list datum) (nodeByKeyValue : gmap nat element)
  : gmap nat element * list (option element) * list (option datum) :=
  match data with
  | [] => (nodeByKeyValue, [], [])
  | d :: rest =>
      match nodeByKeyValue !! key d with
      | Some node =>
          let '(m, update, enter) := bindKey_data rest (delete (key d) nodeByKeyValue) in
          (m, Some (set_data d node) :: update, None :: enter)
      | None =>
          let '(m, update, enter) := bindKey_data rest nodeByKeyValue in
          (m, None :: update, Some d :: enter)
      end
  end.

(** Third loop: the nodes still in the map exit. *)
Definition bindKey_exit (group : list element) (nodeByKeyValue : gmap nat element)
    (exit : list (option element)) : list (option element) :=
  zip_with (fun node e =>
              match nodeByKeyValue !! key (el_data node) with
              | Some node' => if Nat.eqb (el_id node') (el_id node) then Some node else e
              | None => e
              end) group exit.

Definition bindKey (group : list element) (data : list datum)
  : list (option element) * list (option datum) * list (option element) :=
  let '(m1, exit1) := bindKey_nodes group ∅ in
  let '(m2, update, enter) := bindKey_data data m1 in
  (update, enter, bindKey_exit group m2 exit1).

(** ** Operations on a layer *)

Definition modify (id : nat) (f : element -> element) (layer : list element) : list element :=
  map (fun el => if Nat.eqb (el_id el) id then f el else el) layer.

(** [selection.each] over a group: the callback gets the position [i] in
    the group and the node; [node] is the reference the selection holds,
    [el] the element as it is in the document at that moment. *)
Fixpoint each_node (i : nat) (f : nat -> element -> element -> element)
    (group : list (option element)) (layer : list element) : list element :=
  match group with
  | [] => layer
  | None :: rest => each_node (S i) f rest layer
  | Some node :: rest =>
      each_node (S i) f rest (modify (el_id node) (f i node) layer)
  end.

(** [node.__data__ = data[i]], done by the join for the update nodes. *)
Definition write_data (update : list (option element)) (layer : list element) : list element :=
  each_node 0 (fun _ node => set_data (el_data node)) update layer.

(** [selection.attr(...)...on(...)] with callbacks [(d, i)]. *)
Definition each_from (i : nat) (f : nat -> element -> element)
    (group : list (option element)) (layer : list element) : list element :=
  each_node i (fun i _ => f i) group layer.

(** [selection.remove()] *)
Fixpoint remove_all (group : list (option element)) (layer : list element) : list element :=
  match group with
  | [] => layer
  | None :: rest => remove_all rest layer
  | Some node :: rest =>
      remove_all rest (filter (fun el => el_id el ≠ el_id node) layer)
  end.

(** [parent.insertBefore(child, next)]; a [next] that is not a child of
    the parent is a [NotFoundError]. *)
Fixpoint insertBefore (child : element) (next : option nat) (layer : list element)
  : result (list element) :=
  match next with
  | None => Ok (layer ++ [child])
  | Some id =>
      match layer with
      | [] => Throw NotFoundError
      | el :: rest =>
          if Nat.eqb (el_id el) id then Ok (child :: el :: rest)
          else rest' ← insertBefore child next rest; mret (el :: rest')
      end
  end.

(** The [_next] of an enter node: the first update node after it. *)
Fixpoint next_update (update : list (option element)) : option nat :=
  match update with
  | [] => None
  | Some node :: _ => Some (el_id node)
  | None :: rest => next_update rest
  end.

(** [enter.append(...)]: materialise the enter nodes in order; [update]
    is the update group from position [i] on. *)
Fixpoint append_from (i : nat) (create : nat -> datum -> nat -> element)
    (enter : list (option datum)) (update : list (option element))
    (layer : list element) (fresh : nat) : result (list element * nat) :=
  match enter with
  | [] => Ok (layer, fresh)
  | None :: rest => append_from (S i) create rest (tail update) layer fresh
  | Some d :: rest =>
      layer' ← insertBefore (create fresh d i) (next_update (tail update)) layer;
      append_from (S i) create rest (tail update) layer' (S fresh)
  end.

(** The four statements the script applies to each layer: join, remove
    the exit selection, restyle the update selection, append the enter
    selection. *)
Definition joinLayer (create : nat -> datum -> nat -> element)
    (restyle : nat -> element -> element)
    (layer : list element) (data : list datum) (fresh : nat)
  : result (list element * nat) :=
  let '(update, enter, exit) := bindKey layer data in
  let layer := write_data update layer in
  let layer := remove_all exit layer in
  let layer := each_from 0 restyle update layer in
  append_from 0 create enter update layer fresh.


(** ** The export handler (lines 159-171) *)

Definition dquote : string := String "034"%char EmptyString.
Definition quoted (s : string) : string := dquote +:+ s +:+ dquote.

Definition svg_uri : string := "http://www.w3.org/2000/svg".
Definition xlink_uri : string := "http://www.w3.org/1999/xlink".

(** The literal tails of the two regular expressions. *)
Definition xmlns_svg : string := "xmlns=" +:+ quoted svg_uri.
Definition xlink_quoted : string := quoted xlink_uri.

(** The declaration the second replacement writes. *)
Definition xmlns_xlink : string := "xmlns:xlink=" +:+ xlink_quoted.

Definition xml_declaration : string :=
  "<?xml version=" +:+ quoted "1.0" +:+ " standalone=" +:+ quoted "no" +:+ "?>"
    +:+ String "013"%char (String "010"%char EmptyString).

Fixpoint strip_prefix (p s : string) : option string :=
  match p, s with
  | EmptyString, _ => Some s
  | String a p', String b s' => if Ascii.eqb a b then strip_prefix p' s' else None
  | String _ _, EmptyString => None
  end.

(** [[^>]*needle] matched at the head of [s]. *)
Fixpoint skip_then (needle s : string) : bool :=
  match strip_prefix needle s with
  | Some _ => true
  | None =>
      match s with
      | EmptyString => false
      | String c s' => if Ascii.eqb c ">" then false else skip_then needle s'
      end
  end.

(** [source.match(/^<svg[^>]+needle/)] is not [null]. *)
Definition root_match (needle source : string) : bool :=
  match strip_prefix "<svg" source with
  | Some (String c rest) => if Ascii.eqb c ">" then false else skip_then needle rest
  | _ => false
  end.

(** [source.replace(/^<svg/, replacement)] *)
Definition replace_svg (replacement source : string) : string :=
  match strip_prefix "<svg" source with
  | Some rest => replacement +:+ rest
  | None => source
  end.

(** From the serialised [<svg>] to the text put in the blob. *)
Definition exportDocument (source : string) : string :=
  let source :=
    if root_match xmlns_svg source then source
    else replace_svg ("<svg " +:+ xmlns_svg) source in
  let source :=
    if root_match xlink_quoted source then source
    else replace_svg ("<svg " +:+ xmlns_xlink) source in
  xml_declaration +:+ source.

(** No character of [u] is [>]. *)
Fixpoint no_gt (u : string) : Prop :=
  match u with
  | EmptyString => True
  | String c u' => c <> ">"%char /\ no_gt u'
  end.

(** The opening tag of the root holds [needle]: the text is [<svg], then
    at least one character, none of them [>], then [needle]. *)
Definition RootHolds (needle s : string) : Prop :=
  exists u v, s = "<svg" +:+ u +:+ needle +:+ v /\ u <> EmptyString /\ no_gt u.

(** The opening tag of the root has an attribute written [needle], set
    off by a space: the text is [<svg], then characters other than [>],
    then a space and [needle]. *)
Definition RootDeclares (needle s : string) : Prop :=
  exists u v, s = "<svg" +:+ u +:+ " " +:+ needle +:+ v /\ no_gt u.

(** [needle] occurs somewhere in [s]. *)
Fixpoint occurs (needle s : string) : bool :=
  match strip_prefix needle s with
  | Some _ => true
  | None =>
      match s with
      | EmptyString => false
      | String _ s' => occurs needle s'
      end
  end.

(** The text is the serialisation of an [<svg>] element: the tag name is
    followed by a space, by [>] or by [/]. *)
Definition svg_root (source : string) : Prop :=
  exists c rest, source = "<svg" +:+ String c rest
                 /\ (c = " "%char \/ c = ">"%char \/ c = "/"%char).

(** ** A small diagram primitive to run the script on

    The cell of a lone site is the clipping rectangle (the order of
    vertices is that of d3-delaunay); two sites on one horizontal line
    are separated by the vertical bisector; nothing else is derived. *)

Definition box (xmin ymin xmax ymax : Q) : polygon :=
  [(xmax, ymin); (xmax, ymax); (xmin, ymax); (xmin, ymin); (xmax, ymin)].

Definition sample_cellPolygon (pts : list point) (b : Q * Q * Q * Q) (i : nat)
  : option polygon :=
  let '(xmin, ymin, xmax, ymax) := b in
  match pts, i with
  | [_], O => Some (box xmin ymin xmax ymax)
  | [(x0, y0); (x1, y1)], _ =>
      if Qeq_bool y0 y1 && (if Qlt_le_dec x0 x1 then true else false) then
        let xm := (x0 + x1) / 2 in
        match i with
        | O => Some (box xmin ymin xm ymax)
        | S O => Some (box xm ymin xmax ymax)
        | _ => None
        end
      else None
  | _, _ => None
  end.

Definition sample_renderCell (pts : list point) (b : Q * Q * Q * Q) (i : nat)
  : option string :=
  match sample_cellPolygon pts b i with
  | Some _ => Some "M"%string
  | None => None
  end.


(** ** Vocabulary of the properties *)

(** The nodes of a layer, respectively the data, carry the keys
    [a, a+1, ...] in order. *)
Definition keyed (a : nat) (l : list element) : Prop :=
  forall j el, l !! j = Some el -> key (el_data el) = (a + j)%nat.

Definition dkeyed (a : nat) (data : list datum) : Prop :=
  forall j d, data !! j = Some d -> key d = (a + j)%nat.

(** The effect of [each_node] on the elements its group refers to. *)
Fixpoint applied (i : nat) (f : nat -> element -> element -> element)
    (nodes cur : list element) : list element :=
  match nodes, cur with
  | node :: nodes', el :: cur' => f i node el :: applied (S i) f nodes' cur'
  | _, _ => []
  end.

(** The elements made for the points [pts], numbered from [i], with the
    identities [ids]. *)
Fixpoint rendered (mk : nat -> datum -> nat -> element) (i : nat)
    (ids : list nat) (pts : list point) : list element :=
  match ids, pts with
  | id :: ids', p :: pts' => mk id (Datum p i) i :: rendered mk (S i) ids' pts'
  | _, _ => []
  end.

(** The term [d3.polygonArea] adds for the edge from [a] to [b], and the
    sum of these terms along an open path. *)
Definition cross (a b : point) : Q := snd a * fst b - fst a * snd b.

Fixpoint path_sum (l : polygon) : Q :=
  match l with
  | a :: l' =>
      match l' with
      | b :: _ => cross a b + path_sum l'
      | [] => 0
      end
  | [] => 0
  end.

(** ** The script *)

Section Page.

(** [+svg.attr("width")], [+svg.attr("height")] *)
Variables width height : Q.

(** [d3.Delaunay.from(points).voronoi(bounds)]: the polygon of cell [i]
    ([null] when the cell cannot be derived) and its path string. *)
Variable cellPolygon : list point -> Q * Q * Q * Q -> nat -> option polygon.
Variable renderCell : list point -> Q * Q * Q * Q -> nat -> option string.

Definition bounds : Q * Q * Q * Q := (0, 0, width, height).

Definition pointsWithIndex (pts : list point) : list datum :=
  imap (fun index point => Datum point index) pts.

(** The callback of lines 55-62. *)
Definition cellArea (pts : list point) (d : datum) : result Q :=
  let cellPolygon := cellPolygon pts bounds (d_index d) in
  test ← match cellPolygon with
          | None => mret false
          | Some _ => a ← js_polygonArea cellPolygon; mret true
          end;
  if test : bool then calculateArea cellPolygon else mret 0.

Definition cellAreas (pts : list point) : result (list Q) :=
  mapM (cellArea pts) (pointsWithIndex pts).

(** Lines 69-74. *)
Definition domainFor (minArea maxArea : option Q) : option Q * option Q :=
  if js_lt minArea maxArea then (minArea, maxArea)
  else (minArea, js_add1 minArea).

(** What the [fill] callback hands to [colorInterpolator]. *)
Definition fillArgument (areas : list Q) (i : nat) : option Q :=
  let minArea := d3_min areas in
  let maxArea := d3_max areas in
  let scaledValue := colorScale (domainFor minArea maxArea) (areas !! i) in
  if js_strict_eq minArea maxArea then Some 1 else scaledValue.

Definition fill (areas : list Q) (i : nat) : hsl :=
  colorInterpolator (fillArgument areas i).

(** Lines 84-103: the update selection of cells. *)
Definition restyle_path (pts : list point) (areas : list Q) (i : nat) (el : element) : element :=
  Element (el_id el) (el_tag el) (el_data el)
          (renderCell pts bounds (d_index (el_data el)))
          (Some (fill areas i)) (Some "#000"%string)
          (attr_cx el) (attr_cy el) (attr_r el)
          (Some areas) true true (on_click el).

(** Lines 106-125: the enter selection of cells. *)
Definition create_path (pts : list point) (areas : list Q) (id : nat) (d : datum) (i : nat) : element :=
  Element id TagPath d
          (renderCell pts bounds (d_index d))
          (Some (fill areas i)) (Some "#000"%string)
          None None None
          (Some areas) true true false.

(** Lines 135-137. *)
Definition restyle_circle (i : nat) (el : element) : element :=
  Element (el_id el) (el_tag el) (el_data el)
          (attr_d el) (attr_fill el) (attr_stroke el)
          (Some (fst (d_point (el_data el)))) (Some (snd (d_point (el_data el))))
          (attr_r el)
          (on_mouseover el) (on_mousemove el) (on_mouseout el) (on_click el).

(** Lines 140-149. *)
Definition create_circle (id : nat) (d : datum) (i : nat) : element :=
  Element id TagCircle d None None None
          (Some (fst (d_point d))) (Some (snd (d_point d))) (Some 5)
          None false false true.

(** [function drawVoronoi()]. The two layers only ever hold the paths,
    respectively the circles, that this function appends, so
    [selectAll] selects the whole layer. *)
Definition drawVoronoi (s : state) : result state :=
  if decide (length (points s) = 0%nat) then
    mret (State (points s) [] [] (colorDomain s) (tooltip s) (fresh s))
  else
    let pts := points s in
    let data := pointsWithIndex pts in
    areas ← cellAreas pts;
    let domain := domainFor (d3_min areas) (d3_max areas) in
    '(cells, fresh1) ← joinLayer (create_path pts areas) (restyle_path pts areas)
                                 (cellLayer s) data (fresh s);
    '(circles, fresh2) ← joinLayer create_circle restyle_circle
                                   (pointLayer s) data fresh1;
    mret (State pts cells circles domain (tooltip s) fresh2).

(** *** Listeners *)

(** A click event: [event.target.tagName], [d3.pointer(event)] and
    whether [stopPropagation] has been called. *)
Record click_event := ClickEvent {
  ev_tagName : string;
  ev_pointer : point;
  ev_stopped : bool
}.

Definition stopPropagation (ev : click_event) : click_event :=
  ClickEvent (ev_tagName ev) (ev_pointer ev) true.

Definition with_points (s : state) (pts : list point) : state :=
  State pts (cellLayer s) (pointLayer s) (colorDomain s) (tooltip s) (fresh s).

(** Lines 24-31. *)
Definition svg_click (ev : click_event) (s : state) : result state :=
  if decide (ev_tagName ev ≠ "circle"%string) then
    drawVoronoi (with_points s (points s ++ [ev_pointer ev]))
  else mret s.

(** Lines 145-149; [points.splice(i, 1)] removes nothing when [i] is
    past the end. *)
Definition circle_click (ev : click_event) (d : datum) (s : state)
  : result (click_event * state) :=
  let ev := stopPropagation ev in
  s' ← drawVoronoi (with_points s (delete (d_index d) (points s)));
  mret (ev, s').

(** Lines 92-96 and 114-118: [function(event, d, i)]. *)
Definition cell_mouseover (areas : list Q) (d : datum) (i : option nat)
    (tt : tooltip_state) : result tooltip_state :=
  match i ≫= (areas !!.) with
  | None => Throw TypeError                  (* [undefined.toFixed] *)
  | Some a =>
      mret (Tooltip "visible" ("Area: " +:+ toFixed a 2) (tt_top tt) (tt_left tt))
  end.

Definition cell_mousemove (pageX pageY : Q) (tt : tooltip_state) : tooltip_state :=
  Tooltip (tt_visibility tt) (tt_text tt) (Some (pageY - 10)) (Some (pageX + 10)).

Definition cell_mouseout (tt : tooltip_state) : tooltip_state :=
  Tooltip "hidden" (tt_text tt) (tt_top tt) (tt_left tt).

(** Lines 153-156. *)
Definition reset_click (s : state) : result state :=
  drawVoronoi (with_points s []).

(** *** Event dispatch *)

Inductive target := OnSvg | OnCell (k : nat) | OnMarker (k : nat).

Definition with_tooltip (s : state) (tt : tooltip_state) : state :=
  State (points s) (cellLayer s) (pointLayer s) (colorDomain s) tt (fresh s).

(** A click first runs the listener of the element hit, then bubbles to
    the listener of the [<svg>] unless propagation was stopped. The
    position [k] counts the children of the layer in document order. *)
Definition dispatch_click (t : target) (xy : point) (s : state) : result state :=
  match t with
  | OnSvg => svg_click (ClickEvent "svg" xy false) s
  | OnCell k =>
      match cellLayer s !! k with
      | Some el => svg_click (ClickEvent (tag_string (el_tag el)) xy false) s
      | None => mret s
      end
  | OnMarker k =>
      match pointLayer s !! k with
      | Some el =>
          let ev := ClickEvent (tag_string (el_tag el)) xy false in
          '(ev, s) ← (if on_click el then circle_click ev (el_data el) s
                      else mret (ev, s));
          if ev_stopped ev then mret s else svg_click ev s
      | None => mret s
      end
  end.

(** d3-selection (version 6 and later, the versions that have
    [d3.pointer]) calls a listener as [listener.call(this, event,
    this.__data__)]: a third parameter is [undefined]. *)
Definition contextListener {A} (listener : datum -> option nat -> A) (el : element) : A :=
  listener (el_data el) None.

Definition dispatch_mouseover (k : nat) (s : state) : result state :=
  match cellLayer s !! k with
  | Some el =>
      match on_mouseover el with
      | Some areas =>
          tt ← contextListener (cell_mouseover areas) el (tooltip s);
          mret (with_tooltip s tt)
      | None => mret s
      end
  | None => mret s
  end.

Definition dispatch_mousemove (k : nat) (pageX pageY : Q) (s : state) : state :=
  match cellLayer s !! k with
  | Some el =>
      if on_mousemove el then with_tooltip s (cell_mousemove pageX pageY (tooltip s)) else s
  | None => s
  end.

Definition dispatch_mouseout (k : nat) (s : state) : state :=
  match cellLayer s !! k with
  | Some el => if on_mouseout el then with_tooltip s (cell_mouseout (tooltip s)) else s
  | None => s
  end.

(** *** The page as a transition system *)

(** The state when the script has been loaded, before its last line. *)
Definition loaded : state :=
  State [] [] [] (Some 0, Some 1) (Tooltip "hidden" "" None None) 0.

Inductive reachable : state -> Prop :=
| reach_init s :
    drawVoronoi loaded = Ok s -> reachable s
| reach_click s t xy s' :
    reachable s -> dispatch_click t xy s = Ok s' -> reachable s'
| reach_reset s s' :
    reachable s -> reset_click s = Ok s' -> reachable s'
| reach_mouseover s k s' :
    reachable s -> dispatch_mouseover k s = Ok s' -> reachable s'
| reach_mousemove s k x y :
    reachable s -> reachable (dispatch_mousemove k x y s)
| reach_mouseout s k :
    reachable s -> reachable (dispatch_mouseout k s).

(** *** Vocabulary of the properties of the page *)

(** The area the script records for cell [i]. *)
Definition areaOf (pts : list point) (i : nat) : Q :=
  match cellPolygon pts bounds i with
  | Some pg => Qabs (polygonArea pg)
  | None => 0
  end.

Definition areasOf (pts : list point) : list Q :=
  imap (fun i _ => areaOf pts i) pts.

(** The two layers show [pts]: one path and one circle per point, in the
    order of the array, with the identities [cids] and [mids]. *)
Definition drawn (pts : list point) (cids mids : list nat) (s : state) : Prop :=
  length cids = length pts /\ length mids = length pts
  /\ NoDup cids /\ NoDup mids
  /\ Forall (fun id => (id < fresh s)%nat) cids
  /\ Forall (fun id => (id < fresh s)%nat) mids
  /\ cellLayer s = rendered (create_path pts (areasOf pts)) 0 cids pts
  /\ pointLayer s = rendered create_circle 0 mids pts.

(** The point lies in the clipping rectangle. *)
Definition inside (p : point) : Prop :=
  0 <= fst p /\ fst p <= width /\ 0 <= snd p /\ snd p <= height.

(** What d3-delaunay answers for a diagram of one site: its cell is the
    clipping rectangle. *)
Definition lone_site_cell : Prop :=
  forall p, inside p -> cellPolygon [p] bounds 0 = Some (box 0 0 width height).

(** The click lands on something that is not a marker. *)
Definition hits_background (s : state) (t : target) : Prop :=
  match t with
  | OnSvg => True
  | OnCell k => (k < length (cellLayer s))%nat
  | OnMarker _ => False
  end.

Close Scope Q_scope.

(** * Properties *)

(** ** Minimum and maximum of the areas *)

Section MinMax.
Local Open Scope Q_scope.

Lemma min_fold (l : list Q) (acc : Q) :
  exists m, fold_left min_step l (Some acc) = Some m
            /\ (m = acc \/ m ∈ l) /\ m <= acc /\ Forall (Qle m) l.
Proof.
  revert acc. induction l as [|x l IH]; intros acc; simpl.
  - exists acc. repeat split; auto. lra.
  - destruct (Qlt_le_dec x acc) as [Hlt|Hle].
    + destruct (IH x) as (m & Hm & Hin & Hle & Hall).
      exists m. repeat split; auto.
      * right. destruct Hin as [->|Hin]; [left|right]; done.
      * lra.
    + destruct (IH acc) as (m & Hm & Hin & Hle' & Hall).
      exists m. repeat split; auto.
      * destruct Hin as [->|Hin]; [by left|right; by right].
      * constructor; [lra|done].
Qed.

Lemma max_fold (l : list Q) (acc : Q) :
  exists m, fold_left max_step l (Some acc) = Some m
            /\ (m = acc \/ m ∈ l) /\ acc <= m /\ Forall (fun x => x <= m) l.
Proof.
  revert acc. induction l as [|x l IH]; intros acc; simpl.
  - exists acc. repeat split; auto. lra.
  - destruct (Qlt_le_dec acc x) as [Hlt|Hle].
    + destruct (IH x) as (m & Hm & Hin & Hle & Hall).
      exists m. repeat split; auto.
      * right. destruct Hin as [->|Hin]; [left|right]; done.
      * lra.
    + destruct (IH acc) as (m & Hm & Hin & Hle' & Hall).
      exists m. repeat split; auto.
      * destruct Hin as [->|Hin]; [by left|right; by right].
      * constructor; [lra|done].
Qed.

Lemma d3_min_spec (l : list Q) :
  l <> [] ->
  exists m, d3_min l = Some m /\ m ∈ l /\ Forall (Qle m) l.
Proof.
  destruct l as [|x l]; [done|intros _].
  destruct (min_fold l x) as (m & Hm & Hin & Hle & Hall).
  exists m. split; [exact Hm|]. split.
  - destruct Hin as [->|Hin]; [left|by right].
  - by constructor.
Qed.

Lemma d3_max_spec (l : list Q) :
  l <> [] ->
  exists m, d3_max l = Some m /\ m ∈ l /\ Forall (fun x => x <= m) l.
Proof.
  destruct l as [|x l]; [done|intros _].
  destruct (max_fold l x) as (m & Hm & Hin & Hle & Hall).
  exists m. split; [exact Hm|]. split.
  - destruct Hin as [->|Hin]; [left|by right].
  - by constructor.
Qed.

End MinMax.

(** ** The keyed join on a layer whose keys are the positions *)

Section JoinFacts.

Lemma keyed_cons a el l : keyed a (el :: l) -> key (el_data el) = a /\ keyed (S a) l.
Proof.
  intros H. split.
  - rewrite (H 0 el eq_refl). lia.
  - intros j el' Hj. rewrite (H (S j) el' Hj). lia.
Qed.

Lemma dkeyed_cons a d l : dkeyed a (d :: l) -> key d = a /\ dkeyed (S a) l.
Proof.
  intros H. split.
  - rewrite (H 0 d eq_refl). lia.
  - intros j d' Hj. rewrite (H (S j) d' Hj). lia.
Qed.

Lemma bindKey_nodes_keyed l a (M : gmap nat element) :
  keyed a l -> (forall k, a <= k -> M !! k = None) ->
  exists M', bindKey_nodes l M = (M', replicate (length l) None)
    /\ forall k, M' !! k = if decide (a <= k) then l !! (k - a) else M !! k.
Proof.
  revert a M. induction l as [|node rest IH]; intros a M Hk HM.
  - exists M. split; [done|]. intros k. case_decide; [|done].
    rewrite HM by done. done.
  - apply keyed_cons in Hk as [Hnode Hrest]. simpl. rewrite Hnode, (HM a) by lia.
    destruct (IH (S a) (<[a:=node]> M) Hrest) as (M' & -> & HM').
    { intros k Hle. rewrite lookup_insert_ne by lia. apply HM. lia. }
    exists M'. split; [done|]. intros k. rewrite HM'.
    destruct (decide (S a <= k)), (decide (a <= k)); try lia.
    + replace (k - a) with (S (k - S a)) by lia. done.
    + assert (k = a) as -> by lia. rewrite lookup_insert_eq, Nat.sub_diag. done.
    + rewrite lookup_insert_ne by lia. done.
Qed.

Lemma bindKey_data_keyed (layer : list element) data a (M : gmap nat element) :
  dkeyed a data ->
  (forall k, M !! k = if decide (a <= k) then layer !! k else None) ->
  exists M', bindKey_data data M =
      (M', map (fun d => set_data d <$> layer !! key d) data,
           map (fun d => match layer !! key d with Some _ => None | None => Some d end) data)
    /\ forall k, M' !! k = if decide (a + length data <= k) then layer !! k else None.
Proof.
  revert a M. induction data as [|d rest IH]; intros a M Hk HM.
  - exists M. split; [done|]. intros k. rewrite HM. simpl.
    repeat case_decide; try lia; done.
  - apply dkeyed_cons in Hk as [Hd Hrest]. simpl. rewrite Hd.
    pose proof (HM a) as Ha. rewrite decide_True in Ha by lia. rewrite Ha.
    destruct (layer !! a) as [node|] eqn:Hnode.
    + destruct (IH (S a) (delete a M) Hrest) as (M' & -> & HM').
      { intros k. destruct (decide (k = a)) as [->|Hne].
        - rewrite lookup_delete_eq. rewrite decide_False by lia. done.
        - rewrite lookup_delete_ne by done. rewrite HM.
          repeat case_decide; try lia; done. }
      exists M'. split; [done|]. intros k. rewrite HM'.
      repeat case_decide; try lia; done.
    + destruct (IH (S a) M Hrest) as (M' & -> & HM').
      { intros k. rewrite HM. destruct (decide (k = a)) as [->|Hne].
        - rewrite decide_True, decide_False by lia. done.
        - repeat case_decide; try lia; done. }
      exists M'. split; [done|]. intros k. rewrite HM'.
      repeat case_decide; try lia; done.
Qed.

Lemma update_matched (L0 L1 R : list element) (D1 : list datum) :
  length L1 = length D1 -> dkeyed (length L0) D1 ->
  map (fun d => set_data d <$> (L0 ++ L1 ++ R) !! key d) D1
  = zip_with (fun el d => Some (set_data d el)) L1 D1.
Proof.
  revert L0 L1. induction D1 as [|d D1 IH]; intros L0 [|el L1] Hlen Hk; try done.
  apply dkeyed_cons in Hk as [Hd Hrest]. simpl. rewrite Hd.
  rewrite lookup_app_r, Nat.sub_diag by lia. simpl. f_equal.
  specialize (IH (L0 ++ [el]) L1). rewrite <- app_assoc in IH. apply IH.
  - simpl in Hlen. lia.
  - rewrite length_app. simpl. replace (length L0 + 1) with (S (length L0)) by lia. done.
Qed.

Lemma enter_matched (L0 L1 R : list element) (D1 : list datum) :
  length L1 = length D1 -> dkeyed (length L0) D1 ->
  map (fun d => match (L0 ++ L1 ++ R) !! key d with Some _ => None | None => Some d end) D1
  = replicate (length D1) None.
Proof.
  revert L0 L1. induction D1 as [|d D1 IH]; intros L0 [|el L1] Hlen Hk; try done.
  apply dkeyed_cons in Hk as [Hd Hrest]. simpl. rewrite Hd.
  rewrite lookup_app_r, Nat.sub_diag by lia. simpl. f_equal.
  specialize (IH (L0 ++ [el]) L1). rewrite <- app_assoc in IH. apply IH.
  - simpl in Hlen. lia.
  - rewrite length_app. simpl. replace (length L0 + 1) with (S (length L0)) by lia. done.
Qed.

Lemma update_unmatched (layer : list element) (D2 : list datum) :
  dkeyed (length layer) D2 ->
  map (fun d => set_data d <$> layer !! key d) D2 = replicate (length D2) None.
Proof.
  revert layer. induction D2 as [|d D2 IH] using rev_ind; intros layer Hk; [done|].
  rewrite map_app, length_app, replicate_add. f_equal.
  - apply IH. intros j d' Hj. apply Hk. by apply lookup_app_l_Some.
  - simpl. rewrite (Hk (length D2) d).
    + rewrite lookup_ge_None_2 by lia. done.
    + rewrite lookup_app_r, Nat.sub_diag by lia. done.
Qed.

Lemma enter_unmatched (layer : list element) (D2 : list datum) :
  dkeyed (length layer) D2 ->
  map (fun d => match layer !! key d with Some _ => None | None => Some d end) D2
  = Some <$> D2.
Proof.
  revert layer. induction D2 as [|d D2 IH] using rev_ind; intros layer Hk; [done|].
  rewrite map_app, fmap_app. f_equal.
  - apply IH. intros j d' Hj. apply Hk. by apply lookup_app_l_Some.
  - simpl. rewrite (Hk (length D2) d).
    + rewrite lookup_ge_None_2 by lia. done.
    + rewrite lookup_app_r, Nat.sub_diag by lia. done.
Qed.

Lemma dkeyed_app a D1 D2 :
  dkeyed a (D1 ++ D2) -> dkeyed a D1 /\ dkeyed (a + length D1) D2.
Proof.
  intros H. split.
  - intros j d Hj. apply H. by apply lookup_app_l_Some.
  - intros j d Hj. rewrite (H (length D1 + j) d); [lia|].
    rewrite lookup_app_r by lia. replace (length D1 + j - length D1) with j by lia. done.
Qed.

Lemma bindKey_exit_keyed (L1 L2 : list element) (M : gmap nat element) n :
  keyed 0 (L1 ++ L2) -> length L1 <= n -> (L2 = [] \/ n = length L1) ->
  (forall k, M !! k = if decide (n <= k) then (L1 ++ L2) !! k else None) ->
  bindKey_exit (L1 ++ L2) M (replicate (length (L1 ++ L2)) None)
  = replicate (length L1) None ++ (Some <$> L2).
Proof.
  intros Hk Hn Hcase HM. unfold bindKey_exit.
  apply list_eq. intros i. rewrite lookup_zip_with.
  destruct ((L1 ++ L2) !! i) as [node|] eqn:Hi; simpl.
  - rewrite lookup_replicate_2 by (by eapply lookup_lt_Some). simpl.
    pose proof (Hk i node Hi) as Hkey. simpl in Hkey. rewrite Hkey, HM.
    destruct (decide (i < length L1)) as [Hlt|Hge].
    + rewrite decide_False by lia.
      rewrite lookup_app_l by (rewrite length_replicate; lia).
      rewrite lookup_replicate_2 by lia. done.
    + destruct Hcase as [-> | ->].
      { rewrite app_nil_r in Hi. apply lookup_lt_Some in Hi. lia. }
      rewrite decide_True by lia. rewrite Hi, Nat.eqb_refl.
      rewrite lookup_app_r by (rewrite length_replicate; lia).
      rewrite length_replicate, list_lookup_fmap.
      rewrite lookup_app_r in Hi by lia. rewrite Hi. done.
  - apply lookup_ge_None in Hi. symmetry. apply lookup_ge_None.
    rewrite length_app, length_replicate, length_fmap. rewrite length_app in Hi. lia.
Qed.

(** The join of a layer whose keys are its positions with data whose keys
    are their positions: the common prefix updates, surplus data enter,
    surplus nodes exit. *)
Lemma bindKey_aligned (L1 L2 : list element) (D1 D2 : list datum) :
  keyed 0 (L1 ++ L2) -> dkeyed 0 (D1 ++ D2) ->
  length L1 = length D1 -> (L2 = [] \/ D2 = []) ->
  bindKey (L1 ++ L2) (D1 ++ D2)
  = (zip_with (fun el d => Some (set_data d el)) L1 D1 ++ replicate (length D2) None,
     replicate (length L1) None ++ (Some <$> D2),
     replicate (length L1) None ++ (Some <$> L2)).
Proof.
  intros HL HD Hlen Hcase. unfold bindKey.
  destruct (bindKey_nodes_keyed (L1 ++ L2) 0 ∅ HL) as (M1 & -> & HM1).
  { intros k _. apply lookup_empty. }
  destruct (bindKey_data_keyed (L1 ++ L2) (D1 ++ D2) 0 M1 HD) as (M2 & -> & HM2).
  { intros k. rewrite HM1, Nat.sub_0_r. done. }
  apply dkeyed_app in HD as [HD1 HD2]. simpl in HD2.
  rewrite !map_app. f_equal; [f_equal|].
  - f_equal.
    + apply (update_matched [] L1 L2 D1); done.
    + destruct Hcase as [-> | ->]; [|done].
      rewrite app_nil_r. apply update_unmatched. by rewrite Hlen.
  - f_equal.
    + rewrite Hlen. apply (enter_matched [] L1 L2 D1); done.
    + destruct Hcase as [-> | ->]; [|done].
      rewrite app_nil_r. apply enter_unmatched. by rewrite Hlen.
  - apply (bindKey_exit_keyed L1 L2 M2 (length (D1 ++ D2))).
    + done.
    + rewrite length_app. lia.
    + destruct Hcase as [-> | ->]; [by left|right]. rewrite app_nil_r. lia.
    + intros k. rewrite HM2. simpl. done.
Qed.

End JoinFacts.

(** ** The passes over a layer, when identities are unique *)

Section LayerFacts.

Lemma modify_notin id f (l : list element) :
  id ∉ (el_id <$> l) -> modify id f l = l.
Proof.
  induction l as [|el l IH]; intros Hnot; [done|].
  simpl in *. rewrite not_elem_of_cons in Hnot. destruct Hnot as [Hne Hnot].
  rewrite IH by done. destruct (Nat.eqb_spec (el_id el) id); [congruence|done].
Qed.

Lemma modify_middle f (pre post : list element) el :
  NoDup (el_id <$> (pre ++ el :: post)) ->
  modify (el_id el) f (pre ++ el :: post) = pre ++ f el :: post.
Proof.
  intros Hnd. rewrite fmap_app, fmap_cons in Hnd.
  apply NoDup_app in Hnd as (_ & Hpre & Hpost).
  apply NoDup_cons in Hpost as [Hpost _].
  unfold modify. rewrite map_app. simpl. rewrite Nat.eqb_refl.
  f_equal; [|f_equal].
  - apply modify_notin. intros Hin. apply (Hpre _ Hin). left.
  - apply modify_notin. done.
Qed.

Lemma each_node_app i f g1 g2 (cur : list element) :
  each_node i f (g1 ++ g2) cur = each_node (i + length g1) f g2 (each_node i f g1 cur).
Proof.
  revert i cur. induction g1 as [|[node|] g1 IH]; intros i cur; simpl.
  - by rewrite Nat.add_0_r.
  - rewrite IH. f_equal. lia.
  - rewrite IH. f_equal. lia.
Qed.

Lemma each_node_nones i f k (cur : list element) :
  each_node i f (replicate k None) cur = cur.
Proof. revert i. induction k as [|k IH]; intros i; simpl; [done|apply IH]. Qed.

Lemma each_node_aligned i f (nodes pre cur post : list element) :
  Forall2 (fun node el => el_id node = el_id el) nodes cur ->
  NoDup (el_id <$> (pre ++ cur ++ post)) ->
  (forall i node el, el_id (f i node el) = el_id el) ->
  each_node i f (Some <$> nodes) (pre ++ cur ++ post)
  = pre ++ applied i f nodes cur ++ post.
Proof.
  intros Hall Hnd Hf. revert i pre Hnd.
  induction Hall as [|node el nodes cur Hid Hall IH]; intros i pre Hnd; [done|].
  simpl. rewrite Hid. simpl in Hnd. rewrite modify_middle by done.
  specialize (IH (S i) (pre ++ [f i node el])).
  rewrite <- !app_assoc in IH. simpl in IH. apply IH.
  rewrite !fmap_app, fmap_cons, Hf in *. simpl. done.
Qed.

Lemma remove_all_nones k (g : list (option element)) (cur : list element) :
  remove_all (replicate k None ++ g) cur = remove_all g cur.
Proof. induction k as [|k IH]; simpl; done. Qed.

Lemma filter_id_notin id (l : list element) :
  id ∉ (el_id <$> l) -> filter (fun el => el_id el ≠ id) l = l.
Proof.
  induction l as [|el l IH]; intros Hnot; [done|].
  simpl in Hnot. rewrite not_elem_of_cons in Hnot. destruct Hnot as [Hne Hnot].
  rewrite filter_cons_True by congruence. by rewrite IH.
Qed.

Lemma remove_all_suffix (pre L2 : list element) :
  NoDup (el_id <$> (pre ++ L2)) ->
  remove_all (Some <$> L2) (pre ++ L2) = pre.
Proof.
  revert pre. induction L2 as [|el L2 IH]; intros pre Hnd; simpl.
  - by rewrite app_nil_r.
  - assert (filter (fun el0 => el_id el0 ≠ el_id el) (pre ++ el :: L2) = pre ++ L2) as ->.
    { rewrite fmap_app, fmap_cons in Hnd.
      apply NoDup_app in Hnd as (_ & Hpre & Hpost).
      apply NoDup_cons in Hpost as [Hpost _].
      rewrite filter_app, filter_cons_False by (intros H; by apply H).
      rewrite !filter_id_notin; [done|done|].
      intros Hin. apply (Hpre _ Hin). left. }
    apply IH. rewrite fmap_app, fmap_cons in Hnd. rewrite fmap_app.
    apply NoDup_app in Hnd as (Hn1 & Hpre & Hpost).
    apply NoDup_cons in Hpost as [_ Hpost].
    apply NoDup_app. split; [done|]. split; [|done].
    intros x Hx Hx'. apply (Hpre x Hx). by right.
Qed.

Lemma next_update_nones k : next_update (replicate k None) = None.
Proof. induction k; simpl; done. Qed.

Lemma append_from_nones i create k (enter : list (option datum))
    (U1 update : list (option element)) (cur : list element) fresh :
  length U1 = k ->
  append_from i create (replicate k None ++ enter) (U1 ++ update) cur fresh
  = append_from (i + k) create enter update cur fresh.
Proof.
  revert i U1. induction k as [|k IH]; intros i [|u U1] Hlen; try done; simpl.
  - by rewrite Nat.add_0_r.
  - rewrite IH by (simpl in Hlen; lia). f_equal. lia.
Qed.

Lemma insertBefore_None child (layer : list element) :
  insertBefore child None layer = Ok (layer ++ [child]).
Proof. by destruct layer. Qed.

Lemma append_from_entering i create (D2 : list datum) k (cur : list element) fresh :
  append_from i create (Some <$> D2) (replicate k None) cur fresh
  = Ok (cur ++ imap (fun j d => create (fresh + j) d (i + j)) D2, fresh + length D2).
Proof.
  revert i k cur fresh. induction D2 as [|d D2 IH]; intros i k cur fresh.
  - simpl. by rewrite app_nil_r, Nat.add_0_r.
  - rewrite fmap_cons. cbn [append_from].
    assert (tail (replicate k (@None element)) = replicate (pred k) None) as ->.
    { by destruct k. }
    rewrite next_update_nones, insertBefore_None. cbn [mbind result_bind].
    rewrite IH. rewrite <- app_assoc. simpl. rewrite !Nat.add_0_r.
    f_equal. f_equal; [|lia]. f_equal. f_equal.
    apply imap_ext. intros j x _. simpl. f_equal; lia.
Qed.

Lemma zip_with_Some {A B C} (g : A -> B -> C) (l : list A) (k : list B) :
  zip_with (fun a b => Some (g a b)) l k = Some <$> zip_with g l k.
Proof.
  revert k. induction l as [|a l IH]; intros [|b k]; simpl; try done. by rewrite IH.
Qed.

Lemma rebound_ids (L1 : list element) (D1 : list datum) :
  length L1 = length D1 ->
  Forall2 (fun node el => el_id node = el_id el)
          (zip_with (fun el d => set_data d el) L1 D1) L1.
Proof.
  revert D1. induction L1 as [|el L1 IH]; intros [|d D1] Hlen;
    simpl in *; try done; try constructor; try done.
  apply IH. lia.
Qed.

Lemma aligned_ids (N L : list element) :
  Forall2 (fun node el => el_id node = el_id el) N L -> el_id <$> N = el_id <$> L.
Proof.
  induction 1 as [|node el N L Hid _ IH]; [done|].
  rewrite !fmap_cons. by f_equal.
Qed.

Lemma applied_write_data i (L1 : list element) (D1 : list datum) :
  length L1 = length D1 ->
  applied i (fun _ node => set_data (el_data node))
          (zip_with (fun el d => set_data d el) L1 D1) L1
  = zip_with (fun el d => set_data d el) L1 D1.
Proof.
  revert i D1. induction L1 as [|el L1 IH]; intros i [|d D1] Hlen; try done.
  simpl. f_equal. apply IH. simpl in Hlen. lia.
Qed.

Lemma applied_restyle i restyle (N : list element) :
  applied i (fun i _ => restyle i) N N = imap (fun j => restyle (i + j)) N.
Proof.
  revert i. induction N as [|el N IH]; intros i; simpl; [done|].
  rewrite Nat.add_0_r. f_equal. rewrite IH. apply imap_ext.
  intros j x _. simpl. f_equal. lia.
Qed.

(** What the four statements do to a layer whose keys are its positions. *)
Lemma joinLayer_aligned create restyle (L1 L2 : list element) (D1 D2 : list datum) fresh :
  keyed 0 (L1 ++ L2) -> dkeyed 0 (D1 ++ D2) ->
  length L1 = length D1 -> (L2 = [] \/ D2 = []) ->
  NoDup (el_id <$> (L1 ++ L2)) ->
  (forall i el, el_id (restyle i el) = el_id el) ->
  joinLayer create restyle (L1 ++ L2) (D1 ++ D2) fresh
  = Ok (imap restyle (zip_with (fun el d => set_data d el) L1 D1)
          ++ imap (fun j d => create (fresh + j) d (length L1 + j)) D2,
        fresh + length D2).
Proof.
  intros HL HD Hlen Hcase Hnd Hre. unfold joinLayer.
  rewrite bindKey_aligned by done. rewrite zip_with_Some.
  set (N1 := zip_with (fun el d => set_data d el) L1 D1).
  pose proof (rebound_ids L1 D1 Hlen) as Hids. fold N1 in Hids.
  assert (NoDup (el_id <$> (N1 ++ L2))) as Hnd'.
  { rewrite fmap_app, (aligned_ids _ _ Hids), <- fmap_app. done. }
  assert (write_data ((Some <$> N1) ++ replicate (length D2) None) (L1 ++ L2) = N1 ++ L2) as ->.
  { unfold write_data. rewrite each_node_app, each_node_nones.
    rewrite (each_node_aligned 0 _ N1 [] L1 L2) by done.
    simpl. unfold N1. by rewrite applied_write_data. }
  rewrite remove_all_nones, remove_all_suffix by done.
  assert (each_from 0 restyle ((Some <$> N1) ++ replicate (length D2) None) N1
          = imap restyle N1) as ->.
  { unfold each_from. rewrite each_node_app, each_node_nones.
    pose proof (each_node_aligned 0 (fun i _ => restyle i) N1 [] N1 []) as H.
    rewrite !app_nil_r in H. simpl in H. rewrite H.
    - rewrite applied_restyle. done.
    - apply Forall2_same_length_lookup_2; [done|]. intros ??? H1 H2. congruence.
    - rewrite fmap_app in Hnd'. by apply NoDup_app in Hnd' as (? & _).
    - done. }
  rewrite (append_from_nones 0 create (length L1)).
  - rewrite append_from_entering. done.
  - rewrite length_fmap. unfold N1. rewrite length_zip_with. lia.
Qed.

End LayerFacts.

(** ** Layers that show an array of points *)

Section RenderedFacts.

Lemma rendered_app mk i (ids1 ids2 : list nat) (ps1 ps2 : list point) :
  length ids1 = length ps1 ->
  rendered mk i (ids1 ++ ids2) (ps1 ++ ps2)
  = rendered mk i ids1 ps1 ++ rendered mk (i + length ids1) ids2 ps2.
Proof.
  revert i ps1. induction ids1 as [|id ids1 IH]; intros i [|p ps1] Hlen; try done.
  - simpl. by rewrite Nat.add_0_r.
  - simpl. f_equal. rewrite IH by (simpl in Hlen; lia). f_equal. f_equal. lia.
Qed.

Lemma rendered_nil_r mk i (ids : list nat) : rendered mk i ids [] = [].
Proof. by destruct ids. Qed.

Lemma length_rendered mk i (ids : list nat) (ps : list point) :
  length ids = length ps -> length (rendered mk i ids ps) = length ps.
Proof.
  revert i ps. induction ids as [|id ids IH]; intros i [|p ps] Hlen; try done.
  simpl in *. f_equal. apply IH. lia.
Qed.

Lemma rendered_ids mk i (ids : list nat) (ps : list point) :
  (forall id d i, el_id (mk id d i) = id) ->
  length ids = length ps -> el_id <$> rendered mk i ids ps = ids.
Proof.
  intros Hmk. revert i ps. induction ids as [|id ids IH]; intros i [|p ps] Hlen; try done.
  simpl in *. rewrite Hmk. f_equal. apply IH. lia.
Qed.

Lemma keyed_rendered mk i (ids : list nat) (ps : list point) :
  (forall id d i, el_data (mk id d i) = d) -> keyed i (rendered mk i ids ps).
Proof.
  intros Hmk. revert i ps. induction ids as [|id ids IH]; intros i [|p ps]; try done.
  intros [|j] el Hj; simpl in Hj.
  - injection Hj as <-. rewrite Hmk. simpl. lia.
  - rewrite (IH (S i) ps j el Hj). lia.
Qed.

Lemma lookup_rendered mk i (ids : list nat) (ps : list point) j id p :
  ids !! j = Some id -> ps !! j = Some p ->
  rendered mk i ids ps !! j = Some (mk id (Datum p (i + j)) (i + j)).
Proof.
  revert i ps j. induction ids as [|id' ids IH]; intros i [|p' ps] [|j] Hid Hp; try done.
  - simpl in *. injection Hid as ->. injection Hp as ->. by rewrite Nat.add_0_r.
  - simpl in *. rewrite (IH (S i) ps j Hid Hp).
    replace (S i + j) with (i + S j) by lia. done.
Qed.

(** [pointsWithIndex], numbered from [i]. *)
Lemma imap_datum_cons i p (ps : list point) :
  imap (fun j q => Datum q (i + j)) (p :: ps)
  = Datum p i :: imap (fun j q => Datum q (S i + j)) ps.
Proof.
  simpl. rewrite Nat.add_0_r. f_equal. apply imap_ext. intros j q _. simpl. f_equal. lia.
Qed.

Lemma dkeyed_imap_datum i (ps : list point) :
  dkeyed i (imap (fun j q => Datum q (i + j)) ps).
Proof.
  intros j d Hj. rewrite list_lookup_imap in Hj.
  destruct (ps !! j); simpl in Hj; [|done]. injection Hj as <-. done.
Qed.

Lemma restyled_rendered mk0 mk restyle i (ids : list nat) (ps0 ps : list point) :
  length ids = length ps0 -> length ids = length ps ->
  (forall i id d0 i0 p,
      restyle i (set_data (Datum p i) (mk0 id d0 i0)) = mk id (Datum p i) i) ->
  imap (fun j => restyle (i + j))
       (zip_with (fun el d => set_data d el) (rendered mk0 i ids ps0)
                 (imap (fun j q => Datum q (i + j)) ps))
  = rendered mk i ids ps.
Proof.
  intros H0 H1 Hre. revert i ps0 ps H0 H1.
  induction ids as [|id ids IH]; intros i [|p0 ps0] [|p ps] H0 H1; try done.
  rewrite imap_datum_cons. cbn [rendered zip_with imap].
  rewrite Nat.add_0_r, Hre. f_equal.
  rewrite <- (IH (S i) ps0 ps) by (simpl in *; lia).
  apply imap_ext. intros j el _. simpl. f_equal. lia.
Qed.

Lemma created_rendered mk fresh c (ps : list point) :
  imap (fun j d => mk (fresh + j) d (c + j)) (imap (fun j q => Datum q (c + j)) ps)
  = rendered mk c (seq fresh (length ps)) ps.
Proof.
  revert fresh c. induction ps as [|p ps IH]; intros fresh c; [done|].
  rewrite imap_datum_cons. cbn [imap length seq rendered].
  rewrite !Nat.add_0_r. f_equal.
  rewrite <- IH. apply imap_ext. intros j d _. simpl. f_equal; lia.
Qed.

(** The join of a layer that shows [pts0] with the data of [pts]: the
    first elements stay, with their identities, and are restyled; the
    surplus elements go; missing ones are made with fresh identities. *)
Lemma joinLayer_rendered mk0 mk restyle (ids : list nat) (pts0 pts : list point) fresh :
  length ids = length pts0 -> NoDup ids ->
  (forall id d i, el_data (mk0 id d i) = d) ->
  (forall id d i, el_id (mk0 id d i) = id) ->
  (forall i el, el_id (restyle i el) = el_id el) ->
  (forall i id d0 i0 p,
      restyle i (set_data (Datum p i) (mk0 id d0 i0)) = mk id (Datum p i) i) ->
  joinLayer mk restyle (rendered mk0 0 ids pts0)
            (imap (fun index point => Datum point index) pts) fresh
  = Ok (rendered mk 0 (take (length pts) ids
                         ++ seq fresh (length pts - length pts0)) pts,
        fresh + (length pts - length pts0)).
Proof.
  intros Hlen Hnd Hdata Hid Hre Hmk.
  set (c := length pts `min` length pts0).
  assert (rendered mk0 0 ids pts0
          = rendered mk0 0 (take c ids) (take c pts0)
              ++ rendered mk0 c (drop c ids) (drop c pts0)) as HL.
  { rewrite <- (take_drop c ids) at 1. rewrite <- (take_drop c pts0) at 1.
    rewrite rendered_app by (rewrite !length_take; lia).
    rewrite length_take. do 2 f_equal. lia. }
  assert (imap (fun index point => Datum point index) pts
          = imap (fun j q => Datum q (0 + j)) (take c pts)
              ++ imap (fun j q => Datum q (c + j)) (drop c pts)) as HD.
  { rewrite <- (take_drop c pts) at 1. rewrite imap_app. f_equal.
    apply imap_ext. intros j q _. simpl. rewrite length_take. f_equal. lia. }
  pose proof (keyed_rendered mk0 0 ids pts0 Hdata) as Hkeyed.
  pose proof (dkeyed_imap_datum 0 pts) as Hdkeyed. simpl in Hdkeyed.
  assert (NoDup (el_id <$> rendered mk0 0 ids pts0)) as Hnd'.
  { by rewrite rendered_ids. }
  rewrite HL, HD in *.
  rewrite joinLayer_aligned; try done.
  - rewrite length_imap, length_drop.
    rewrite length_rendered by (rewrite !length_take; lia).
    rewrite length_take.
    assert (length pts - c = length pts - length pts0) as -> by lia.
    f_equal. f_equal.
    rewrite <- (take_drop c pts) at 5.
    assert (take (length pts) ids = take c ids) as ->.
    { unfold c. destruct (Nat.min_spec (length pts) (length pts0)) as [[? ->]|[? ->]]; [done|].
      rewrite !take_ge by lia. done. }
    rewrite rendered_app by (rewrite !length_take; lia).
    rewrite length_take.
    assert (c `min` length ids = c) as -> by lia.
    assert (c `min` length pts0 = c) as -> by lia.
    f_equal.
    + rewrite <- (restyled_rendered mk0 mk restyle 0 (take c ids) (take c pts0) (take c pts));
        [done| | |done]; rewrite !length_take; lia.
    + rewrite created_rendered, length_drop.
      assert (length pts - c = length pts - length pts0) as -> by lia. done.
  - rewrite length_imap, length_rendered; rewrite !length_take; lia.
  - destruct (decide (length pts <= length pts0)).
    + right. rewrite drop_ge by lia. done.
    + left. rewrite (drop_ge ids) by lia. done.
Qed.

End RenderedFacts.

(** ** The areas *)

Section AreaFacts.

Lemma cellArea_total pts d : cellArea pts d = Ok (areaOf pts (d_index d)).
Proof.
  unfold cellArea, areaOf. destruct (cellPolygon pts bounds (d_index d)); done.
Qed.

Lemma mapM_cellArea pts (g : nat -> nat) (l : list point) :
  mapM (cellArea pts) (imap (fun i p => Datum p (g i)) l)
  = Ok (imap (fun i _ => areaOf pts (g i)) l).
Proof.
  revert g. induction l as [|p l IH]; intros g; [done|].
  simpl. rewrite cellArea_total. simpl.
  specialize (IH (g ∘ S)). unfold compose in *. simpl in IH.
  change (imap ((fun i p => Datum p (g i)) ∘ S) l)
    with (imap (fun i p => Datum p (g (S i))) l).
  rewrite IH. done.
Qed.

(** The area computation never throws: a missing polygon is answered by
    the [else] branch. *)
Lemma cellAreas_total pts : cellAreas pts = Ok (areasOf pts).
Proof. apply (mapM_cellArea pts (fun i => i)). Qed.

Lemma length_areasOf pts : length (areasOf pts) = length pts.
Proof. unfold areasOf. apply length_imap. Qed.

Lemma lookup_areasOf pts i :
  i < length pts -> areasOf pts !! i = Some (areaOf pts i).
Proof.
  intros Hi. unfold areasOf. rewrite list_lookup_imap.
  destruct (lookup_lt_is_Some_2 pts i Hi) as [p ->]. done.
Qed.

Lemma areaOf_nonneg pts i : (0 <= areaOf pts i)%Q.
Proof.
  unfold areaOf. destruct (cellPolygon pts bounds i); [apply Qabs_nonneg|apply Qle_refl].
Qed.

End AreaFacts.

(** ** Redrawing *)

Section DrawFacts.

Lemma ids_step (ids : list nat) fresh k n :
  NoDup ids -> Forall (fun id => id < fresh) ids ->
  NoDup (take n ids ++ seq fresh k)
  /\ Forall (fun id => id < fresh + k) (take n ids ++ seq fresh k).
Proof.
  intros Hnd Hlt. split.
  - apply NoDup_app. split; [|split].
    + eapply sublist_NoDup; [exact Hnd|apply sublist_take].
    + intros x Hx Hx'. apply elem_of_seq in Hx'.
      apply elem_of_take in Hx as (i & Hi & _).
      rewrite Forall_forall in Hlt. apply list_elem_of_lookup_2 in Hi.
      specialize (Hlt x Hi). lia.
    + apply NoDup_seq.
  - apply Forall_app. split.
    + apply Forall_take. eapply Forall_impl; [exact Hlt|]. simpl. lia.
    + apply Forall_forall. intros x Hx. apply elem_of_seq in Hx. lia.
Qed.

(** Redrawing a page that shows [pts0] after the array became [pts]. *)
Lemma drawVoronoi_spec pts0 cids mids s pts :
  drawn pts0 cids mids s ->
  exists s',
    drawVoronoi (with_points s pts) = Ok s'
    /\ points s' = pts /\ tooltip s' = tooltip s
    /\ (pts <> [] ->
        colorDomain s' = domainFor (d3_min (areasOf pts)) (d3_max (areasOf pts)))
    /\ drawn pts
         (take (length pts) cids ++ seq (fresh s) (length pts - length pts0))
         (take (length pts) mids
            ++ seq (fresh s + (length pts - length pts0)) (length pts - length pts0))
         s'.
Proof.
  intros (Hc & Hm & Hndc & Hndm & Hfc & Hfm & Hcells & Hmarks).
  unfold drawVoronoi. cbn [points with_points cellLayer pointLayer fresh colorDomain tooltip].
  destruct (decide (length pts = 0)) as [Hnil|Hne].
  - apply nil_length_inv in Hnil as ->. eexists. split; [reflexivity|].
    repeat split; simpl; try done; try constructor.
  - rewrite cellAreas_total. cbn [mbind result_bind].
    rewrite Hcells, Hmarks. unfold pointsWithIndex.
    rewrite (joinLayer_rendered (create_path pts0 (areasOf pts0))
               (create_path pts (areasOf pts))) by done.
    cbn [mbind result_bind].
    rewrite (joinLayer_rendered create_circle create_circle) by done.
    cbn [mbind result_bind mret result_ret].
    eexists. split; [reflexivity|].
    destruct (ids_step cids (fresh s) (length pts - length pts0) (length pts) Hndc Hfc)
      as [Hnd1 Hlt1].
    assert (Forall (fun id => id < fresh s + (length pts - length pts0)) mids) as Hfm'.
    { eapply Forall_impl; [exact Hfm|]. simpl. lia. }
    destruct (ids_step mids (fresh s + (length pts - length pts0))
                (length pts - length pts0) (length pts) Hndm Hfm') as [Hnd2 Hlt2].
    repeat split; simpl; try done.
    + rewrite length_app, length_take, length_seq. lia.
    + rewrite length_app, length_take, length_seq. lia.
    + eapply Forall_impl; [exact Hlt1|]. simpl. lia.
Qed.

Lemma drawn_with_tooltip pts cids mids s tt :
  drawn pts cids mids s -> drawn pts cids mids (with_tooltip s tt).
Proof. done. Qed.

Lemma rendered_lookup_inv mk i (ids : list nat) (ps : list point) j el :
  rendered mk i ids ps !! j = Some el ->
  exists id p, ids !! j = Some id /\ ps !! j = Some p
               /\ el = mk id (Datum p (i + j)) (i + j).
Proof.
  revert i ps j. induction ids as [|id ids IH]; intros i [|p ps] [|j] Hj; try done.
  - simpl in Hj. injection Hj as <-. exists id, p. by rewrite Nat.add_0_r.
  - simpl in Hj. destruct (IH (S i) ps j Hj) as (id' & p' & ? & ? & ->).
    exists id', p'. replace (S i + j) with (i + S j) by lia. done.
Qed.

(** Every state the page can be in shows its array of points. *)
Lemma reachable_drawn s :
  reachable s -> exists cids mids, drawn (points s) cids mids s.
Proof.
  induction 1 as [s Hinit|s t xy s' _ IH Hstep|s s' _ IH Hstep
                  |s k s' _ IH Hstep|s k x y _ IH|s k _ IH].
  - assert (drawn [] [] [] loaded) as Hd.
    { repeat split; simpl; try done; constructor. }
    destruct (drawVoronoi_spec [] [] [] loaded [] Hd) as (s' & Hs' & Hp & _ & _ & Hd').
    change (with_points loaded []) with loaded in Hs'.
    rewrite Hinit in Hs'. injection Hs' as <-. rewrite Hp. eauto.
  - destruct IH as (cids & mids & Hd).
    assert (forall pts, drawVoronoi (with_points s pts) = Ok s' ->
                        exists cids mids, drawn (points s') cids mids s') as Hdraw.
    { intros pts Hs'.
      destruct (drawVoronoi_spec _ _ _ s pts Hd) as (s'' & Hs'' & Hp & _ & _ & Hd').
      rewrite Hs' in Hs''. injection Hs'' as <-. rewrite Hp. eauto. }
    assert (forall tag, svg_click (ClickEvent tag xy false) s = Ok s' ->
                        exists cids mids, drawn (points s') cids mids s') as Hsvg.
    { intros tag. unfold svg_click. case_decide; [apply Hdraw|].
      intros [= <-]. eauto. }
    destruct t as [|k|k]; simpl in Hstep.
    + by eapply Hsvg.
    + destruct (cellLayer s !! k); [by eapply Hsvg|]. injection Hstep as <-. eauto.
    + destruct (pointLayer s !! k) as [el|]; [|injection Hstep as <-; eauto].
      destruct (on_click el);
        [|cbn [mbind mret result_bind result_ret ev_stopped] in Hstep; by eapply Hsvg].
      unfold circle_click in Hstep.
      destruct (drawVoronoi (with_points s (delete (d_index (el_data el)) (points s))))
        as [s1|e] eqn:Hs1; [|done].
      simpl in Hstep. injection Hstep as <-. by eapply Hdraw.
  - destruct IH as (cids & mids & Hd).
    destruct (drawVoronoi_spec _ _ _ s [] Hd) as (s'' & Hs'' & Hp & _ & _ & Hd').
    unfold reset_click in Hstep. rewrite Hstep in Hs''. injection Hs'' as <-.
    rewrite Hp. eauto.
  - destruct IH as (cids & mids & Hd). unfold dispatch_mouseover in Hstep.
    destruct (cellLayer s !! k) as [el|]; [|injection Hstep as <-; eauto].
    destruct (on_mouseover el) as [areas|]; [|injection Hstep as <-; eauto].
    destruct (contextListener (cell_mouseover areas) el (tooltip s)) as [tt|];
      [|done].
    simpl in Hstep. injection Hstep as <-. exists cids, mids. done.
  - destruct IH as (cids & mids & Hd). exists cids, mids. unfold dispatch_mousemove.
    destruct (cellLayer s !! k) as [el|]; [|done]. by destruct (on_mousemove el).
  - destruct IH as (cids & mids & Hd). exists cids, mids. unfold dispatch_mouseout.
    destruct (cellLayer s !! k) as [el|]; [|done]. by destruct (on_mouseout el).
Qed.

End DrawFacts.

(** ** Colouring by area *)

Section ColourFacts.
Local Open Scope Q_scope.

Lemma areas_between (areas : list Q) i a :
  areas !! i = Some a ->
  exists mn mx, d3_min areas = Some mn /\ d3_max areas = Some mx
                /\ mn ∈ areas /\ mx ∈ areas /\ mn <= a /\ a <= mx.
Proof.
  intros Hi.
  assert (areas <> []) as Hne by (intros ->; done).
  destruct (d3_min_spec areas Hne) as (mn & Hmn & Hin & Hall).
  destruct (d3_max_spec areas Hne) as (mx & Hmx & Hin' & Hall').
  exists mn, mx. repeat split; try done.
  - rewrite Forall_forall in Hall. apply Hall. by eapply list_elem_of_lookup_2.
  - rewrite Forall_forall in Hall'. apply Hall'. by eapply list_elem_of_lookup_2.
Qed.

Lemma scaleLinear_unit mn mx a :
  mn < mx -> mn <= a -> a <= mx ->
  0 <= scaleLinear mn mx 0 1 a /\ scaleLinear mn mx 0 1 a <= 1.
Proof.
  intros Hlt Hlo Hhi. unfold scaleLinear.
  destruct (Qlt_le_dec mx mn) as [Hbad|_]; [lra|].
  unfold interpolateNumber, normalize.
  destruct (Qeq_bool (mx - mn) 0) eqn:Heq.
  { apply Qeq_bool_iff in Heq. lra. }
  assert (0 <= (a - mn) / (mx - mn)) as H0.
  { apply Qle_shift_div_l; lra. }
  assert ((a - mn) / (mx - mn) <= 1) as H1.
  { apply Qle_shift_div_r; lra. }
  split; lra.
Qed.

(** The value handed to the interpolator lies in the unit interval. *)
Lemma fillArgument_range (areas : list Q) i a :
  areas !! i = Some a ->
  exists v, fillArgument areas i = Some v /\ 0 <= v /\ v <= 1.
Proof.
  intros Hi.
  destruct (areas_between areas i a Hi) as (mn & mx & Hmn & Hmx & _ & _ & Hlo & Hhi).
  unfold fillArgument. rewrite Hmn, Hmx, Hi. cbn [js_strict_eq].
  destruct (Qeq_bool mn mx) eqn:Heq.
  { exists 1. split; [done|]. split; lra. }
  unfold domainFor, js_lt.
  destruct (Qlt_le_dec mn mx) as [Hlt|Hle].
  - cbn [colorScale]. eexists. split; [reflexivity|].
    by apply scaleLinear_unit.
  - assert (mn == mx) as Hq by lra.
    apply Qeq_bool_iff in Hq. congruence.
Qed.

(** When the smallest and the largest area agree, the value is 1. *)
Lemma fillArgument_tie (areas : list Q) i :
  areas <> [] ->
  (forall a b, a ∈ areas -> b ∈ areas -> a == b) ->
  fillArgument areas i = Some 1.
Proof.
  intros Hne Hall.
  destruct (d3_min_spec areas Hne) as (mn & Hmn & Hin & _).
  destruct (d3_max_spec areas Hne) as (mx & Hmx & Hin' & _).
  unfold fillArgument. rewrite Hmn, Hmx. cbn [js_strict_eq].
  rewrite (proj2 (Qeq_bool_iff mn mx) (Hall mn mx Hin Hin')). done.
Qed.

Lemma hue_of_maximum : hue (colorInterpolator (Some 1)) = Some 120.
Proof. reflexivity. Qed.

Lemma polygonArea_box w h : polygonArea (box 0 0 w h) == - (w * h).
Proof. unfold polygonArea, box. simpl. field. Qed.

Lemma scaledValue_range (areas : list Q) i a :
  areas !! i = Some a ->
  exists u, colorScale (domainFor (d3_min areas) (d3_max areas)) (areas !! i) = Some u
            /\ 0 <= u /\ u <= 1.
Proof.
  intros Hi.
  destruct (areas_between areas i a Hi) as (mn & mx & Hmn & Hmx & _ & _ & Hlo & Hhi).
  rewrite Hmn, Hmx, Hi. unfold domainFor, js_lt.
  destruct (Qlt_le_dec mn mx) as [Hlt|Hle]; cbn [colorScale js_add1].
  - eexists. split; [reflexivity|]. by apply scaleLinear_unit.
  - eexists. split; [reflexivity|]. apply scaleLinear_unit; lra.
Qed.

End ColourFacts.

(** ** The claims about a redraw *)

Section RedrawClaims.
Local Open Scope Q_scope.

Lemma rendered_singleton mk (ids : list nat) (p : point) :
  length ids = 1%nat ->
  exists id, ids = [id] /\ rendered mk 0 ids [p] = [mk id (Datum p 0) 0%nat].
Proof.
  destruct ids as [|id [|??]]; try done. intros _. by exists id.
Qed.

(** C1. For a point set of exactly one point inside the rectangle, the
    redraw leaves exactly one cell, whose polygon is the clipping
    rectangle; the area computed for it is [width * height]; and the cell
    is filled with the colour at the maximum-area end of the ramp, hue
    120. *)
Theorem single_point_fills_rectangle s p :
  0 <= width -> 0 <= height -> lone_site_cell -> inside p -> reachable s ->
  exists s' el a,
    drawVoronoi (with_points s [p]) = Ok s'
    /\ cellLayer s' = [el]
    /\ cellPolygon [p] bounds (d_index (el_data el)) = Some (box 0 0 width height)
    /\ cellAreas [p] = Ok [a] /\ a == width * height
    /\ fillArgument [a] 0 = Some 1
    /\ attr_fill el = Some (colorInterpolator (Some 1))
    /\ hue (colorInterpolator (Some 1)) = Some 120.
Proof.
  intros Hw Hh Hsite Hin Hreach.
  destruct (reachable_drawn s Hreach) as (cids & mids & Hd).
  destruct (drawVoronoi_spec _ _ _ s [p] Hd)
    as (s' & Hs' & _ & _ & _ & (Hc & _ & _ & _ & _ & _ & Hcells & _)).
  destruct (rendered_singleton (create_path [p] (areasOf [p])) _ p Hc) as (id & _ & Hone).
  rewrite Hone in Hcells.
  assert (areasOf [p] = [Qabs (polygonArea (box 0 0 width height))]) as Hareas.
  { unfold areasOf, areaOf. simpl. by rewrite (Hsite p Hin). }
  assert (fillArgument (areasOf [p]) 0 = Some 1) as Harg.
  { apply fillArgument_tie; [by rewrite Hareas|].
    rewrite Hareas. intros a b Ha Hb.
    apply list_elem_of_singleton in Ha, Hb. by subst. }
  exists s', (create_path [p] (areasOf [p]) id (Datum p 0) 0%nat),
         (Qabs (polygonArea (box 0 0 width height))).
  split; [done|]. split; [done|]. split; [by apply Hsite|].
  split; [by rewrite cellAreas_total, Hareas|]. split.
  { rewrite polygonArea_box, Qabs_opp. apply Qabs_pos. by apply Qmult_le_0_compat. }
  split; [by rewrite <- Hareas|]. split; [|reflexivity].
  simpl. unfold fill. by rewrite Harg.
Qed.

Lemma rendered_elem mk i (ids : list nat) (ps : list point) el :
  el ∈ rendered mk i ids ps ->
  exists j id p, ids !! j = Some id /\ ps !! j = Some p
                 /\ el = mk id (Datum p (i + j)) (i + j)%nat.
Proof.
  intros Hel. apply list_elem_of_lookup_1 in Hel as (j & Hj).
  destruct (rendered_lookup_inv _ _ _ _ _ _ Hj) as (id & q & ? & ? & ->).
  by exists j, id, q.
Qed.

(** C2. For a non-empty point set whose cell areas are all equal, the
    value used for the interpolation is 1 for every cell, and every cell
    gets the same colour, that of the maximum-area end. *)
Theorem equal_areas_one_colour s pts areas :
  reachable s -> pts <> [] -> cellAreas pts = Ok areas ->
  (forall a b, a ∈ areas -> b ∈ areas -> a == b) ->
  exists s',
    drawVoronoi (with_points s pts) = Ok s'
    /\ length (cellLayer s') = length pts
    /\ (forall i, fillArgument areas i = Some 1)
    /\ (forall el, el ∈ cellLayer s' ->
                   attr_fill el = Some (colorInterpolator (Some 1))).
Proof.
  intros Hreach Hne Hareas Hall.
  rewrite cellAreas_total in Hareas. injection Hareas as <-.
  destruct (reachable_drawn s Hreach) as (cids & mids & Hd).
  destruct (drawVoronoi_spec _ _ _ s pts Hd)
    as (s' & Hs' & _ & _ & _ & (Hc & _ & _ & _ & _ & _ & Hcells & _)).
  assert (areasOf pts <> []) as Hne'.
  { intros Heq. apply (f_equal length) in Heq. rewrite length_areasOf in Heq.
    destruct pts; done. }
  exists s'. split; [done|]. split; [|split].
  - rewrite Hcells. by apply length_rendered.
  - intros i. by apply fillArgument_tie.
  - intros el Hel. rewrite Hcells in Hel.
    apply rendered_elem in Hel as (j & id & q & _ & _ & ->).
    simpl. unfold fill. by rewrite fillArgument_tie.
Qed.

(** C3. In every redraw, for every cell, the value handed to the hue
    interpolation lies in [0, 1]; so does the value the scale computes
    for the cell's area, although the scale itself does not clamp. *)
Theorem interpolator_argument_in_unit_interval s pts :
  reachable s ->
  exists s' areas,
    drawVoronoi (with_points s pts) = Ok s'
    /\ cellAreas pts = Ok areas
    /\ forall i el, cellLayer s' !! i = Some el ->
        exists v u,
          attr_fill el = Some (colorInterpolator (fillArgument areas i))
          /\ fillArgument areas i = Some v /\ 0 <= v /\ v <= 1
          /\ colorScale (colorDomain s') (areas !! i) = Some u /\ 0 <= u /\ u <= 1.
Proof.
  intros Hreach.
  destruct (reachable_drawn s Hreach) as (cids & mids & Hd).
  destruct (drawVoronoi_spec _ _ _ s pts Hd)
    as (s' & Hs' & _ & _ & Hdom & (Hc & _ & _ & _ & _ & _ & Hcells & _)).
  exists s', (areasOf pts). split; [done|]. split; [apply cellAreas_total|].
  intros i el Hel. rewrite Hcells in Hel.
  destruct (rendered_lookup_inv _ _ _ _ _ _ Hel) as (id & q & _ & Hq & ->).
  assert (i < length pts)%nat as Hi by (by eapply lookup_lt_Some).
  pose proof (lookup_areasOf pts i Hi) as Ha.
  destruct (fillArgument_range _ _ _ Ha) as (v & Hv & Hv0 & Hv1).
  destruct (scaledValue_range _ _ _ Ha) as (u & Hu & Hu0 & Hu1).
  exists v, u. rewrite Hdom by (intros ->; done). done.
Qed.

(** C5. A point whose cell polygon cannot be derived gets the area 0; that
    0 takes part in the minimum and maximum (it is the minimum, the lower
    end of the scale's domain); and the redraw returns normally. *)
Theorem degenerate_cell_has_area_zero s pts i :
  reachable s -> (i < length pts)%nat -> cellPolygon pts bounds i = None ->
  exists s' areas mn mx,
    drawVoronoi (with_points s pts) = Ok s'
    /\ cellAreas pts = Ok areas
    /\ areas !! i = Some 0
    /\ d3_min areas = Some mn /\ d3_max areas = Some mx
    /\ mn == 0 /\ 0 <= mx
    /\ fst (colorDomain s') = Some mn.
Proof.
  intros Hreach Hi Hnone.
  destruct (reachable_drawn s Hreach) as (cids & mids & Hd).
  destruct (drawVoronoi_spec _ _ _ s pts Hd) as (s' & Hs' & _ & _ & Hdom & _).
  assert (areasOf pts !! i = Some 0) as Ha.
  { rewrite lookup_areasOf by done. unfold areaOf. by rewrite Hnone. }
  destruct (areas_between _ _ _ Ha) as (mn & mx & Hmn & Hmx & Hin & _ & Hlo & Hhi).
  exists s', (areasOf pts), mn, mx.
  split; [done|]. split; [apply cellAreas_total|].
  split; [done|]. split; [done|]. split; [done|].
  split; [|split; [done|]].
  - apply list_elem_of_lookup_1 in Hin as (j & Hj).
    assert (j < length pts)%nat as Hlt.
    { apply lookup_lt_Some in Hj. by rewrite length_areasOf in Hj. }
    rewrite lookup_areasOf in Hj by done. injection Hj as <-.
    pose proof (areaOf_nonneg pts j). lra.
  - rewrite Hdom by (intros ->; simpl in Hi; lia).
    rewrite Hmn, Hmx. unfold domainFor. by destruct (js_lt (Some mn) (Some mx)).
Qed.

End RedrawClaims.

(** ** The claims about pointer events *)

Section EventClaims.

Lemma cell_mouseover_indexed areas d k a tt :
  areas !! k = Some a ->
  cell_mouseover areas d (Some k) tt
  = Ok (Tooltip "visible" ("Area: " +:+ toFixed a 2) (tt_top tt) (tt_left tt)).
Proof. intros Ha. unfold cell_mouseover. simpl. by rewrite Ha. Qed.

(** C4. The claim is that hovering a cell shows its area with two
    decimals. The listener is written [function(event, d, i)] and reads
    [cellAreas[i]], but it is called with the event and the datum only:
    for every cell of every reachable page the hover ends in a
    [TypeError], and the tooltip is not touched. *)
Theorem hover_raises_TypeError s k el :
  reachable s -> cellLayer s !! k = Some el ->
  dispatch_mouseover k s = Throw TypeError.
Proof.
  intros Hreach Hel.
  destruct (reachable_drawn s Hreach) as (cids & mids & Hd).
  destruct Hd as (_ & _ & _ & _ & _ & _ & Hcells & _).
  unfold dispatch_mouseover. rewrite Hel. rewrite Hcells in Hel.
  destruct (rendered_lookup_inv _ _ _ _ _ _ Hel) as (id & p & _ & _ & ->).
  reflexivity.
Qed.

Lemma background_click s t xy :
  reachable s -> hits_background s t ->
  dispatch_click t xy s = drawVoronoi (with_points s (points s ++ [xy])).
Proof.
  intros Hreach Ht. destruct t as [|k|k]; [done| |done].
  destruct (reachable_drawn s Hreach) as (cids & mids & Hd).
  destruct Hd as (_ & _ & _ & _ & _ & _ & Hcells & _).
  simpl in Ht. destruct (lookup_lt_is_Some_2 _ _ Ht) as [el Hel].
  unfold dispatch_click. rewrite Hel. rewrite Hcells in Hel.
  destruct (rendered_lookup_inv _ _ _ _ _ _ Hel) as (id & p & _ & _ & ->).
  reflexivity.
Qed.

Lemma marker_click s k el xy :
  reachable s -> pointLayer s !! k = Some el ->
  exists p, points s !! k = Some p
    /\ attr_cx el = Some (fst p) /\ attr_cy el = Some (snd p)
    /\ dispatch_click (OnMarker k) xy s
       = drawVoronoi (with_points s (delete k (points s))).
Proof.
  intros Hreach Hel.
  destruct (reachable_drawn s Hreach) as (cids & mids & Hd).
  destruct Hd as (_ & _ & _ & _ & _ & _ & _ & Hmarks).
  unfold dispatch_click. rewrite Hel. rewrite Hmarks in Hel.
  destruct (rendered_lookup_inv _ _ _ _ _ _ Hel) as (id & p & _ & Hp & ->).
  exists p. split; [done|]. split; [done|]. split; [done|].
  cbn [on_click create_circle el_data d_index Nat.add]. unfold circle_click.
  cbn [d_index].
  destruct (drawVoronoi (with_points s (delete k (points s)))); done.
Qed.

(** C7. A click on a marker removes the point that marker shows and
    nothing else; the click is not taken as a click on the background, so
    no point is added at its position. *)
Theorem marker_click_only_removes s k el xy :
  reachable s -> pointLayer s !! k = Some el ->
  exists s' p,
    dispatch_click (OnMarker k) xy s = Ok s'
    /\ points s !! k = Some p
    /\ attr_cx el = Some (fst p) /\ attr_cy el = Some (snd p)
    /\ points s' = take k (points s) ++ drop (S k) (points s)
    /\ S (length (points s')) = length (points s).
Proof.
  intros Hreach Hel.
  destruct (marker_click s k el xy Hreach Hel) as (p & Hp & Hx & Hy & ->).
  destruct (reachable_drawn s Hreach) as (cids & mids & Hd).
  destruct (drawVoronoi_spec _ _ _ s (delete k (points s)) Hd)
    as (s' & Hs' & Hpts & _).
  exists s', p. repeat (split; [done|]).
  rewrite Hpts. split; [apply delete_take_drop|].
  rewrite length_delete by eauto. apply lookup_lt_Some in Hp.
  unfold point in *. lia.
Qed.

Lemma push_ids (ids : list nat) (pts : list point) xy f :
  length ids = length pts ->
  take (length (pts ++ [xy])) ids ++ seq f (length (pts ++ [xy]) - length pts)
  = ids ++ [f].
Proof.
  intros Hlen. rewrite length_app. simpl.
  rewrite take_ge by lia.
  by replace (length pts + 1 - length pts) with 1 by lia.
Qed.

Lemma pop_ids (ids : list nat) (pts : list point) xy f g :
  length ids = length pts ->
  take (length pts) (ids ++ [f]) ++ seq g (length pts - length (pts ++ [xy]))
  = ids.
Proof.
  intros Hlen. rewrite length_app. simpl.
  replace (length pts - (length pts + 1)) with 0 by lia.
  rewrite <- Hlen, take_app_length. simpl. apply app_nil_r.
Qed.

(** C8. Adding a point and at once removing it through its marker (the
    last one) gives back the array of points and, after the redraw, the
    cells and markers that were there before: the same elements with the
    same paths, colours and positions. *)
Theorem add_then_remove_restores s t xy xy' :
  reachable s -> hits_background s t ->
  exists s1 s2,
    dispatch_click t xy s = Ok s1
    /\ points s1 = points s ++ [xy]
    /\ dispatch_click (OnMarker (length (points s))) xy' s1 = Ok s2
    /\ points s2 = points s
    /\ cellLayer s2 = cellLayer s
    /\ pointLayer s2 = pointLayer s.
Proof.
  intros Hreach Ht.
  destruct (reachable_drawn s Hreach) as (cids & mids & Hd).
  pose proof Hd as (Hc & Hm & _ & _ & _ & _ & Hcells & Hmarks).
  destruct (drawVoronoi_spec _ _ _ s (points s ++ [xy]) Hd)
    as (s1 & Hs1 & Hp1 & _ & _ & Hd1).
  rewrite !push_ids in Hd1 by done.
  assert (reachable s1) as Hreach1.
  { eapply reach_click; [exact Hreach|]. by rewrite background_click. }
  pose proof Hd1 as (_ & _ & _ & _ & _ & _ & _ & Hmarks1).
  assert (exists el, pointLayer s1 !! length (points s) = Some el) as [el Hel].
  { apply lookup_lt_is_Some_2. rewrite Hmarks1, length_rendered, length_app; simpl.
    - lia.
    - rewrite !length_app. simpl. lia. }
  destruct (marker_click s1 _ el xy' Hreach1 Hel) as (p & _ & _ & _ & Hclick).
  rewrite <- Hp1 in Hd1.
  destruct (drawVoronoi_spec _ _ _ s1 (points s) Hd1)
    as (s2 & Hs2 & Hp2 & _ & _ & Hd2).
  rewrite Hp1 in Hd2. rewrite !pop_ids in Hd2 by done.
  destruct Hd2 as (_ & _ & _ & _ & _ & _ & Hcells2 & Hmarks2).
  exists s1, s2. split; [by rewrite background_click|]. split; [done|].
  split.
  { rewrite Hclick, Hp1.
    replace (delete (length (points s)) (points s ++ [xy])) with (points s); [done|].
    rewrite delete_take_drop, take_app_length.
    rewrite drop_ge by (rewrite length_app; simpl; lia). by rewrite app_nil_r. }
  split; [done|]. split; congruence.
Qed.

Lemma rendered_keys mk i (ids : list nat) (ps : list point) :
  (forall id d i, el_data (mk id d i) = d) ->
  length ids = length ps ->
  (fun el => key (el_data el)) <$> rendered mk i ids ps = seq i (length ps).
Proof.
  intros Hmk. revert i ps. induction ids as [|id ids IH]; intros i [|p ps] Hlen; try done.
  simpl in *. rewrite Hmk. simpl. f_equal. apply IH. lia.
Qed.

Lemma join_after_push mk (ids : list nat) (pts : list point) xy :
  length ids = length pts ->
  (forall id d i, el_data (mk id d i) = d) ->
  exists upd,
    bindKey (rendered mk 0 ids pts) (pointsWithIndex (pts ++ [xy]))
    = ((Some <$> upd) ++ [None],
       replicate (length pts) None ++ [Some (Datum xy (length pts))],
       replicate (length pts) None)
    /\ el_id <$> upd = el_id <$> rendered mk 0 ids pts.
Proof.
  intros Hlen Hmk. set (L := rendered mk 0 ids pts).
  assert (length L = length pts) as HlenL by (by apply length_rendered).
  pose proof (dkeyed_imap_datum 0 (pts ++ [xy])) as Hdk.
  assert (pointsWithIndex (pts ++ [xy])
          = imap (fun j q => Datum q (0 + j)) pts ++ [Datum xy (length pts)]) as HD.
  { unfold pointsWithIndex. rewrite imap_app. simpl. by rewrite Nat.add_0_r. }
  change (imap (fun j q => Datum q (0 + j)) (pts ++ [xy]))
    with (pointsWithIndex (pts ++ [xy])) in Hdk.
  rewrite HD in *.
  exists (zip_with (fun el d => set_data d el) L (imap (fun j q => Datum q (0 + j)) pts)).
  split.
  - rewrite <- (app_nil_r L) at 1.
    rewrite bindKey_aligned; try done.
    + rewrite zip_with_Some, HlenL. simpl. by rewrite app_nil_r.
    + rewrite app_nil_r. by apply keyed_rendered.
    + by rewrite length_imap.
    + by left.
  - apply aligned_ids, rebound_ids. by rewrite length_imap.
Qed.

Lemma rendered_kept mk0 mk (ids : list nat) (pts : list point) f xy j el :
  rendered mk0 0 ids pts !! j = Some el ->
  exists id p,
    el = mk0 id (Datum p j) j
    /\ rendered mk 0 (ids ++ [f]) (pts ++ [xy]) !! j = Some (mk id (Datum p j) j).
Proof.
  intros Hel.
  destruct (rendered_lookup_inv _ _ _ _ _ _ Hel) as (id & p & Hid & Hp & ->).
  exists id, p. split; [done|].
  apply (lookup_rendered mk 0 (ids ++ [f]) (pts ++ [xy]) j id p).
  - by apply lookup_app_l_Some.
  - by apply lookup_app_l_Some.
Qed.

Lemma rendered_new mk (ids : list nat) (pts : list point) f xy :
  length ids = length pts ->
  rendered mk 0 (ids ++ [f]) (pts ++ [xy]) !! length pts
  = Some (mk f (Datum xy (length pts)) (length pts)).
Proof.
  intros Hlen.
  apply (lookup_rendered mk 0 (ids ++ [f]) (pts ++ [xy]) (length pts) f xy).
  - by apply list_lookup_middle.
  - by apply list_lookup_middle.
Qed.

(** C10. Adding a point leaves the key of every element as it was: in the
    join that follows, for the cells and for the markers alike, the exit
    group holds no node, every element already there is in the update
    group, and exactly one datum enters. After the redraw the elements
    that were there are still there, in place and with their keys, and
    each has been updated in place: a path keeps its identity and datum
    and carries the outline, the fill and the listener computed for the
    new array; a circle keeps its identity and datum and sits at its
    point. One new cell and one new marker, made for the new point, have
    been appended. *)
Theorem add_keeps_existing_elements s t xy :
  reachable s -> hits_background s t ->
  let n := length (points s) in
  let data := pointsWithIndex (points s ++ [xy]) in
  let keys := fmap (M := list) (fun el => key (el_data el)) in
  exists s' updc updm areas',
    dispatch_click t xy s = Ok s'
    /\ points s' = points s ++ [xy]
    /\ bindKey (cellLayer s) data
       = ((Some <$> updc) ++ [None],
          replicate n None ++ [Some (Datum xy n)], replicate n None)
    /\ el_id <$> updc = el_id <$> cellLayer s
    /\ bindKey (pointLayer s) data
       = ((Some <$> updm) ++ [None],
          replicate n None ++ [Some (Datum xy n)], replicate n None)
    /\ el_id <$> updm = el_id <$> pointLayer s
    /\ el_id <$> cellLayer s' = (el_id <$> cellLayer s) ++ [fresh s]
    /\ el_id <$> pointLayer s' = (el_id <$> pointLayer s) ++ [S (fresh s)]
    /\ (fresh s ∉ (el_id <$> cellLayer s))
    /\ (S (fresh s) ∉ (el_id <$> pointLayer s))
    /\ keys (cellLayer s) = seq 0 n /\ keys (cellLayer s') = seq 0 (S n)
    /\ keys (pointLayer s) = seq 0 n /\ keys (pointLayer s') = seq 0 (S n)
    /\ cellAreas (points s') = Ok areas'
    /\ (forall j el, cellLayer s !! j = Some el ->
          exists el',
            cellLayer s' !! j = Some el'
            /\ el_id el' = el_id el /\ el_tag el' = el_tag el
            /\ el_data el' = el_data el
            /\ attr_d el' = renderCell (points s') bounds j
            /\ attr_fill el' = Some (fill areas' j)
            /\ attr_stroke el' = Some "#000"%string
            /\ on_mouseover el' = Some areas'
            /\ on_mousemove el' = true /\ on_mouseout el' = true)
    /\ (exists el',
          cellLayer s' !! n = Some el'
          /\ el_id el' = fresh s /\ el_tag el' = TagPath
          /\ el_data el' = Datum xy n
          /\ attr_d el' = renderCell (points s') bounds n
          /\ attr_fill el' = Some (fill areas' n)
          /\ attr_stroke el' = Some "#000"%string
          /\ on_mouseover el' = Some areas'
          /\ on_mousemove el' = true /\ on_mouseout el' = true)
    /\ (forall j el, pointLayer s !! j = Some el ->
          exists el',
            pointLayer s' !! j = Some el'
            /\ el_id el' = el_id el /\ el_tag el' = el_tag el
            /\ el_data el' = el_data el
            /\ attr_cx el' = Some (fst (d_point (el_data el)))
            /\ attr_cy el' = Some (snd (d_point (el_data el)))
            /\ attr_r el' = attr_r el /\ on_click el' = on_click el)
    /\ (exists el',
          pointLayer s' !! n = Some el'
          /\ el_id el' = S (fresh s) /\ el_tag el' = TagCircle
          /\ el_data el' = Datum xy n
          /\ attr_cx el' = Some (fst xy) /\ attr_cy el' = Some (snd xy)
          /\ attr_r el' = Some 5%Q /\ on_click el' = true).
Proof.
  intros Hreach Ht n data keys.
  destruct (reachable_drawn s Hreach) as (cids & mids & Hd).
  pose proof Hd as (Hc & Hm & _ & _ & Hfc & Hfm & Hcells & Hmarks).
  destruct (drawVoronoi_spec _ _ _ s (points s ++ [xy]) Hd)
    as (s' & Hs' & Hp' & _ & _ & Hd').
  rewrite !push_ids in Hd' by done.
  assert (length (points s ++ [xy]) - length (points s) = 1) as Hone.
  { rewrite length_app. simpl. lia. }
  rewrite Hone in Hd'.
  destruct Hd' as (Hc' & Hm' & _ & _ & _ & _ & Hcells' & Hmarks').
  destruct (join_after_push (create_path (points s) (areasOf (points s)))
              cids (points s) xy Hc) as (updc & Hjc & Hidc); [done|].
  destruct (join_after_push create_circle mids (points s) xy Hm)
    as (updm & Hjm & Hidm); [done|].
  assert (length (points s ++ [xy]) = S n) as Hn.
  { rewrite length_app. simpl. unfold n. lia. }
  replace (fresh s + 1) with (S (fresh s)) in * by lia.
  exists s', updc, updm, (areasOf (points s ++ [xy])).
  split; [by rewrite background_click|]. split; [done|].
  rewrite Hp'. rewrite Hcells, Hmarks, Hcells', Hmarks'.
  split; [exact Hjc|]. split; [done|]. split; [exact Hjm|]. split; [done|].
  rewrite !rendered_ids by done.
  split; [done|]. split; [done|].
  split. { intros Hin. rewrite Forall_forall in Hfc. specialize (Hfc _ Hin). lia. }
  split. { intros Hin. rewrite Forall_forall in Hfm. specialize (Hfm _ Hin). lia. }
  unfold keys. rewrite !rendered_keys by done. rewrite Hn.
  split; [done|]. split; [done|]. split; [done|]. split; [done|].
  split; [apply cellAreas_total|].
  split; [|split; [|split]].
  - intros j el Hel.
    destruct (rendered_kept _ (create_path (points s ++ [xy])
                                 (areasOf (points s ++ [xy])))
                _ _ (fresh s) xy j el Hel) as (id & p & -> & Hnew).
    eexists. split; [exact Hnew|]. done.
  - eexists. split; [apply rendered_new; exact Hc|]. done.
  - intros j el Hel.
    destruct (rendered_kept _ create_circle _ _ (S (fresh s)) xy j el Hel)
      as (id & p & -> & Hnew).
    eexists. split; [exact Hnew|]. done.
  - eexists. split; [apply rendered_new; exact Hm|]. done.
Qed.

End EventClaims.

(** ** What every page of the script looks like *)

Section PageInvariants.

(** The page a redraw leaves, spelled out. *)
Lemma drawVoronoi_result pts0 cids mids s pts :
  drawn pts0 cids mids s ->
  drawVoronoi (with_points s pts)
  = Ok (State pts
          (rendered (create_path pts (areasOf pts)) 0
             (take (length pts) cids ++ seq (fresh s) (length pts - length pts0)) pts)
          (rendered create_circle 0
             (take (length pts) mids
                ++ seq (fresh s + (length pts - length pts0)) (length pts - length pts0))
             pts)
          (if decide (length pts = 0) then colorDomain s
           else domainFor (d3_min (areasOf pts)) (d3_max (areasOf pts)))
          (tooltip s)
          (fresh s + (length pts - length pts0) + (length pts - length pts0))).
Proof.
  intros (Hc & Hm & Hndc & Hndm & Hfc & Hfm & Hcells & Hmarks).
  unfold drawVoronoi. cbn [points with_points cellLayer pointLayer fresh colorDomain tooltip].
  destruct (decide (length pts = 0)) as [Hnil|Hne].
  - apply nil_length_inv in Hnil as ->. simpl. by rewrite !Nat.add_0_r.
  - rewrite cellAreas_total. cbn [mbind result_bind].
    rewrite Hcells, Hmarks. unfold pointsWithIndex.
    rewrite (joinLayer_rendered (create_path pts0 (areasOf pts0))
               (create_path pts (areasOf pts))) by done.
    cbn [mbind result_bind].
    rewrite (joinLayer_rendered create_circle create_circle) by done.
    reflexivity.
Qed.

Lemma with_points_same s : with_points s (points s) = s.
Proof. by destruct s. Qed.

(** A click either leaves the page alone or redraws it for some array. *)
Lemma click_cases t xy s s' :
  dispatch_click t xy s = Ok s' ->
  s' = s \/ exists pts, drawVoronoi (with_points s pts) = Ok s'.
Proof.
  assert (forall ev, svg_click ev s = Ok s' ->
                     s' = s \/ exists pts, drawVoronoi (with_points s pts) = Ok s') as Hsvg.
  { intros ev. unfold svg_click. case_decide; [eauto|]. intros [= <-]. by left. }
  destruct t as [|k|k]; simpl.
  - apply Hsvg.
  - destruct (cellLayer s !! k); [apply Hsvg|]. intros [= <-]. by left.
  - destruct (pointLayer s !! k) as [el|]; [|intros [= <-]; by left].
    destruct (on_click el).
    + unfold circle_click.
      destruct (drawVoronoi (with_points s (delete (d_index (el_data el)) (points s))))
        as [s1|e] eqn:Hs1; [|done].
      cbn [mbind mret result_bind result_ret stopPropagation ev_stopped].
      intros [= <-]. eauto.
    + cbn [mbind mret result_bind result_ret ev_stopped]. apply Hsvg.
Qed.

(** No hover ever returns normally with a changed page. *)
Lemma mouseover_never_changes s k s' :
  reachable s -> dispatch_mouseover k s = Ok s' -> s' = s.
Proof.
  intros Hreach. destruct (reachable_drawn s Hreach) as (cids & mids & Hd).
  destruct Hd as (_ & _ & _ & _ & _ & _ & Hcells & _).
  unfold dispatch_mouseover.
  destruct (cellLayer s !! k) as [el|] eqn:Hel; [|by intros [= <-]].
  rewrite Hcells in Hel.
  destruct (rendered_lookup_inv _ _ _ _ _ _ Hel) as (id & p & _ & _ & ->).
  discriminate.
Qed.

(** An induction principle over the pages the script can reach: start
    from the loaded page, redraw for a new array, move or hide the
    tooltip. *)
Lemma reachable_inv (P : state -> Prop) :
  P loaded ->
  (forall s pts s', reachable s -> P s ->
                    drawVoronoi (with_points s pts) = Ok s' -> P s') ->
  (forall s x y, reachable s -> P s ->
                 P (with_tooltip s (cell_mousemove x y (tooltip s)))) ->
  (forall s, reachable s -> P s -> P (with_tooltip s (cell_mouseout (tooltip s)))) ->
  forall s, reachable s -> P s.
Proof.
  intros Hloaded Hdraw Hmove Hout.
  assert (reachable loaded) as Hrl by (apply reach_init; reflexivity).
  induction 1 as [s Hinit|s t xy s' Hr IH Hstep|s s' Hr IH Hstep
                  |s k s' Hr IH Hstep|s k x y Hr IH|s k Hr IH].
  - apply (Hdraw loaded [] s Hrl Hloaded). exact Hinit.
  - destruct (click_cases _ _ _ _ Hstep) as [->|[pts Hpts]]; [done|].
    by apply (Hdraw s pts s').
  - by apply (Hdraw s [] s').
  - by rewrite (mouseover_never_changes s k s' Hr Hstep).
  - unfold dispatch_mousemove. destruct (cellLayer s !! k) as [el|]; [|done].
    destruct (on_mousemove el); [by apply Hmove|done].
  - unfold dispatch_mouseout. destruct (cellLayer s !! k) as [el|]; [|done].
    destruct (on_mouseout el); [by apply Hout|done].
Qed.

Lemma reachable_domain s :
  reachable s -> points s <> [] ->
  colorDomain s
  = domainFor (d3_min (areasOf (points s))) (d3_max (areasOf (points s))).
Proof.
  intros Hreach. revert s Hreach.
  apply (reachable_inv (fun s =>
           points s <> [] ->
           colorDomain s
           = domainFor (d3_min (areasOf (points s))) (d3_max (areasOf (points s))))).
  - done.
  - intros s pts s' Hr _ Hs' Hne.
    destruct (reachable_drawn s Hr) as (cids & mids & Hd).
    destruct (drawVoronoi_spec _ _ _ s pts Hd) as (s'' & Hs'' & Hp & _ & Hdom & _).
    rewrite Hs' in Hs''. injection Hs'' as <-. rewrite Hp in *. by apply Hdom.
  - done.
  - done.
Qed.

Lemma drawVoronoi_same s : reachable s -> drawVoronoi s = Ok s.
Proof.
  intros Hreach. destruct (reachable_drawn s Hreach) as (cids & mids & Hd).
  pose proof (drawVoronoi_result _ _ _ s (points s) Hd) as Hres.
  rewrite with_points_same in Hres. rewrite Hres. clear Hres.
  destruct Hd as (Hc & Hm & _ & _ & _ & _ & Hcells & Hmarks).
  rewrite Nat.sub_diag. cbn [seq]. rewrite !app_nil_r, !Nat.add_0_r.
  rewrite !take_ge by lia. rewrite <- Hcells, <- Hmarks.
  assert ((if decide (length (points s) = 0) then colorDomain s
           else domainFor (d3_min (areasOf (points s))) (d3_max (areasOf (points s))))
          = colorDomain s) as ->.
  { case_decide; [done|]. symmetry. apply reachable_domain; [done|].
    intros Heq. by rewrite Heq in *. }
  by destruct s.
Qed.

(** X1. Redrawing a page that has not changed changes nothing: the same
    elements, paths, colours, positions and scale domain come back. *)
Theorem redraw_changes_nothing s : reachable s -> drawVoronoi s = Ok s.
Proof.
  intros Hreach. destruct (reachable_drawn s Hreach) as (cids & mids & Hd).
  pose proof (reachable_domain s Hreach) as Hdom.
  rewrite <- (with_points_same s) at 1.
  rewrite (drawVoronoi_result _ _ _ s (points s) Hd).
  destruct Hd as (Hc & Hm & _ & _ & _ & _ & Hcells & Hmarks).
  rewrite Nat.sub_diag. cbn [seq]. rewrite !app_nil_r, !Nat.add_0_r.
  rewrite !take_ge by lia. rewrite <- Hcells, <- Hmarks.
  destruct (decide (length (points s) = 0)) as [Hnil|Hne].
  - by destruct s.
  - rewrite <- Hdom; [by destruct s|]. intros Heq. by rewrite Heq in Hne.
Qed.

(** X2. On every page one path and one circle stand for each point, in the
    order of the array: the path of point [k] has the key [k], the outline
    of cell [k], the colour computed for area [k] and a black stroke; the
    circle sits at the point, has radius 5 and carries the listener that
    removes the point. *)
Theorem page_shows_points s :
  reachable s ->
  length (cellLayer s) = length (points s)
  /\ length (pointLayer s) = length (points s)
  /\ forall k p, points s !! k = Some p ->
      exists path circle areas,
        cellAreas (points s) = Ok areas
        /\ cellLayer s !! k = Some path /\ pointLayer s !! k = Some circle
        /\ el_tag path = TagPath /\ el_data path = Datum p k
        /\ attr_d path = renderCell (points s) bounds k
        /\ attr_fill path = Some (fill areas k)
        /\ attr_stroke path = Some "#000"%string
        /\ el_tag circle = TagCircle /\ el_data circle = Datum p k
        /\ attr_cx circle = Some (fst p) /\ attr_cy circle = Some (snd p)
        /\ attr_r circle = Some 5%Q
        /\ on_click circle = true.
Proof.
  intros Hreach. destruct (reachable_drawn s Hreach) as (cids & mids & Hd).
  destruct Hd as (Hc & Hm & _ & _ & _ & _ & Hcells & Hmarks).
  split; [rewrite Hcells; by apply length_rendered|].
  split; [rewrite Hmarks; by apply length_rendered|].
  intros k p Hp.
  assert (k < length (points s)) as Hk by (by eapply lookup_lt_Some).
  destruct (lookup_lt_is_Some_2 cids k) as [cid Hcid]; [lia|].
  destruct (lookup_lt_is_Some_2 mids k) as [mid Hmid]; [lia|].
  eexists _, _, (areasOf (points s)).
  split; [apply cellAreas_total|].
  rewrite Hcells, Hmarks.
  rewrite (lookup_rendered _ 0 cids (points s) k cid p Hcid Hp).
  rewrite (lookup_rendered _ 0 mids (points s) k mid p Hmid Hp).
  split; [reflexivity|]. split; [reflexivity|]. done.
Qed.

(** X3. The tooltip is never shown: on every page its visibility is
    [hidden] and its text is empty, because no hover gets as far as
    setting them. *)
Theorem tooltip_never_shown s :
  reachable s ->
  tt_visibility (tooltip s) = "hidden"%string /\ tt_text (tooltip s) = ""%string.
Proof.
  revert s.
  apply (reachable_inv (fun s =>
           tt_visibility (tooltip s) = "hidden"%string
           /\ tt_text (tooltip s) = ""%string)).
  - done.
  - intros s pts s' Hr IH Hs'.
    destruct (reachable_drawn s Hr) as (cids & mids & Hd).
    destruct (drawVoronoi_spec _ _ _ s pts Hd) as (s'' & Hs'' & _ & Htt & _).
    rewrite Hs' in Hs''. injection Hs'' as <-. by rewrite Htt.
  - intros s x y _ [Hvis Htext]. by split.
  - intros s _ [_ Htext]. by split.
Qed.


Lemma delete_past_end {A} (l : list A) i : length l <= i -> delete i l = l.
Proof.
  intros Hi. rewrite delete_take_drop, take_ge, drop_ge by lia. apply app_nil_r.
Qed.

(** X5. The listener of a circle whose bound index lies past the end of
    the array removes nothing: the page stays exactly as it is (and the
    event is stopped). *)
Theorem stale_index_removes_nothing s ev d :
  reachable s -> length (points s) <= d_index d ->
  circle_click ev d s = Ok (stopPropagation ev, s).
Proof.
  intros Hreach Hd. unfold circle_click.
  rewrite delete_past_end by done.
  rewrite with_points_same, drawVoronoi_same by done. reflexivity.
Qed.

(** X6. A click on marker [k] takes point [k] out of the array, but the
    elements that leave the document are the last path and the last
    circle: the others stay, and from position [k] on each of them now
    stands for the point that followed its own. *)
Theorem marker_click_drops_last_elements s k el xy :
  reachable s -> pointLayer s !! k = Some el ->
  exists s',
    dispatch_click (OnMarker k) xy s = Ok s'
    /\ el_id <$> cellLayer s'
       = take (pred (length (points s))) (el_id <$> cellLayer s)
    /\ el_id <$> pointLayer s'
       = take (pred (length (points s))) (el_id <$> pointLayer s)
    /\ forall j el',
        pointLayer s' !! j = Some el' ->
        d_index (el_data el') = j
        /\ points s !! (if decide (j < k) then j else S j)
           = Some (d_point (el_data el')).
Proof.
  intros Hreach Hel.
  destruct (marker_click s k el xy Hreach Hel) as (p & Hp & _ & _ & ->).
  destruct (reachable_drawn s Hreach) as (cids & mids & Hd).
  rewrite (drawVoronoi_result _ _ _ s _ Hd).
  destruct Hd as (Hc & Hm & _ & _ & _ & _ & Hcells & Hmarks).
  pose proof (lookup_lt_Some _ _ _ Hp) as Hk.
  assert (length (delete k (points s)) = pred (length (points s))) as Hlen.
  { rewrite length_delete by eauto. lia. }
  rewrite Hlen.
  replace (pred (length (points s)) - length (points s)) with 0 by lia.
  cbn [seq]. rewrite !app_nil_r.
  eexists. split; [reflexivity|]. cbn [cellLayer pointLayer].
  rewrite Hcells, Hmarks.
  rewrite !rendered_ids by (try done; rewrite length_take; lia).
  split; [done|]. split; [done|].
  intros j el' Hj.
  destruct (rendered_lookup_inv _ _ _ _ _ _ Hj) as (id & q & _ & Hq & ->).
  split; [done|]. cbn [create_circle el_data d_point].
  case_decide.
  - by rewrite list_lookup_delete_lt in Hq.
  - by rewrite list_lookup_delete_ge in Hq by lia.
Qed.

End PageInvariants.

(** ** More on areas and colours *)

Section ColourRamp.
Local Open Scope Q_scope.

Lemma colorInterpolator_value v :
  exists h,
    colorInterpolator (Some v) = Hsl (Some h) (Some (60 / 100)) (Some (70 / 100))
    /\ h == v * 120.
Proof.
  exists (0 + v * (120 - 0)). split; [reflexivity|ring].
Qed.

Lemma fillArgument_spread (areas : list Q) i a mn mx :
  d3_min areas = Some mn -> d3_max areas = Some mx -> mn < mx ->
  areas !! i = Some a ->
  exists v, fillArgument areas i = Some v /\ v == (a - mn) / (mx - mn).
Proof.
  intros Hmn Hmx Hlt Hi. unfold fillArgument. rewrite Hmn, Hmx, Hi.
  cbn [js_strict_eq].
  destruct (Qeq_bool mn mx) eqn:Heq.
  { apply Qeq_bool_iff in Heq. lra. }
  unfold domainFor, js_lt. destruct (Qlt_le_dec mn mx) as [_|Hle]; [|lra].
  cbn [colorScale]. eexists. split; [reflexivity|].
  unfold scaleLinear. destruct (Qlt_le_dec mx mn) as [Hbad|_]; [lra|].
  unfold interpolateNumber, normalize.
  destruct (Qeq_bool (mx - mn) 0) eqn:Heq'.
  { apply Qeq_bool_iff in Heq'. lra. }
  ring.
Qed.

Lemma fillArgument_monotone (areas : list Q) i j a b :
  areas !! i = Some a -> areas !! j = Some b -> a <= b ->
  exists v w, fillArgument areas i = Some v /\ fillArgument areas j = Some w
              /\ v <= w.
Proof.
  intros Hi Hj Hab.
  destruct (areas_between areas i a Hi) as (mn & mx & Hmn & Hmx & _ & _ & Hlo & Hhi).
  destruct (Qlt_le_dec mn mx) as [Hlt|Hle].
  - destruct (fillArgument_spread areas i a mn mx Hmn Hmx Hlt Hi) as (v & Hv & Hveq).
    destruct (fillArgument_spread areas j b mn mx Hmn Hmx Hlt Hj) as (w & Hw & Hweq).
    exists v, w. split; [done|]. split; [done|].
    rewrite Hveq, Hweq. unfold Qdiv. apply Qmult_le_compat_r; [lra|].
    apply Qinv_le_0_compat. lra.
  - exists 1, 1. unfold fillArgument. rewrite Hmn, Hmx. cbn [js_strict_eq].
    assert (mn == mx) as Heq by lra.
    rewrite (proj2 (Qeq_bool_iff mn mx) Heq). split; [done|]. split; [done|lra].
Qed.

(** X7. Every cell of every page is filled from the fixed ramp: the hue
    lies between 0 and 120, the saturation is 60% and the lightness
    70%. *)
Theorem fills_stay_on_the_ramp s el :
  reachable s -> el ∈ cellLayer s ->
  exists h,
    attr_fill el = Some (Hsl (Some h) (Some (60 / 100)) (Some (70 / 100)))
    /\ 0 <= h /\ h <= 120.
Proof.
  intros Hreach Hel.
  destruct (reachable_drawn s Hreach) as (cids & mids & Hd).
  destruct Hd as (_ & _ & _ & _ & _ & _ & Hcells & _).
  rewrite Hcells in Hel.
  apply rendered_elem in Hel as (j & id & p & _ & Hp & ->).
  assert (j < length (points s))%nat as Hj by (by eapply lookup_lt_Some).
  pose proof (lookup_areasOf (points s) j Hj) as Ha.
  destruct (fillArgument_range _ _ _ Ha) as (v & Hv & Hv0 & Hv1).
  destruct (colorInterpolator_value v) as (h & Hh & Hheq).
  exists h. cbn [create_path attr_fill Nat.add]. unfold fill. rewrite Hv, Hh.
  split; [done|]. split; rewrite Hheq; lra.
Qed.

(** X8. The colour follows the area: of two cells of one drawing, the one
    with the larger area gets the hue that is nearer to 120 (or the same
    hue). *)
Theorem larger_area_higher_hue (areas : list Q) i j a b :
  areas !! i = Some a -> areas !! j = Some b -> a <= b ->
  exists hi hj,
    hue (fill areas i) = Some hi /\ hue (fill areas j) = Some hj /\ hi <= hj.
Proof.
  intros Hi Hj Hab.
  destruct (fillArgument_monotone areas i j a b Hi Hj Hab) as (v & w & Hv & Hw & Hvw).
  destruct (colorInterpolator_value v) as (hv & Hhv & Hveq).
  destruct (colorInterpolator_value w) as (hw & Hhw & Hweq).
  exists hv, hw. unfold fill. rewrite Hv, Hw, Hhv, Hhw.
  split; [done|]. split; [done|]. rewrite Hveq, Hweq. lra.
Qed.

(** X9. When the areas differ, a cell of the smallest area gets hue 0 and
    a cell of the largest area gets hue 120. *)
Theorem extreme_areas_get_end_hues (areas : list Q) mn mx :
  d3_min areas = Some mn -> d3_max areas = Some mx -> mn < mx ->
  (forall i a, areas !! i = Some a -> a == mn ->
               exists h, hue (fill areas i) = Some h /\ h == 0)
  /\ (forall i a, areas !! i = Some a -> a == mx ->
                  exists h, hue (fill areas i) = Some h /\ h == 120).
Proof.
  intros Hmn Hmx Hlt. split; intros i a Hi Ha.
  - destruct (fillArgument_spread areas i a mn mx Hmn Hmx Hlt Hi) as (v & Hv & Hveq).
    destruct (colorInterpolator_value v) as (h & Hh & Hheq).
    exists h. unfold fill. rewrite Hv, Hh. split; [done|].
    rewrite Hheq, Hveq. assert (a - mn == 0) as -> by lra.
    unfold Qdiv. ring.
  - destruct (fillArgument_spread areas i a mn mx Hmn Hmx Hlt Hi) as (v & Hv & Hveq).
    destruct (colorInterpolator_value v) as (h & Hh & Hheq).
    exists h. unfold fill. rewrite Hv, Hh. split; [done|].
    rewrite Hheq, Hveq. assert (a - mn == mx - mn) as -> by lra.
    unfold Qdiv. rewrite Qmult_inv_r by lra. ring.
Qed.


(** X11. The area computation answers for every array of points, whatever
    the diagram holds: one area per point, none negative, the absolute
    polygon area where the cell has a polygon and 0 where it has none. *)
Theorem cellAreas_one_per_point pts :
  exists areas,
    cellAreas pts = Ok areas
    /\ length areas = length pts
    /\ Forall (fun a => 0 <= a) areas
    /\ forall i, (i < length pts)%nat ->
         areas !! i = Some (match cellPolygon pts bounds i with
                            | Some pg => Qabs (polygonArea pg)
                            | None => 0
                            end).
Proof.
  exists (areasOf pts). split; [apply cellAreas_total|].
  split; [apply length_areasOf|]. split.
  - apply Forall_lookup_2. intros i a Ha.
    assert (i < length pts)%nat as Hi.
    { apply lookup_lt_Some in Ha. by rewrite length_areasOf in Ha. }
    rewrite lookup_areasOf in Ha by done. injection Ha as <-. apply areaOf_nonneg.
  - intros i Hi. by rewrite lookup_areasOf.
Qed.

End ColourRamp.

End Page.

Close Scope Q_scope.

(** ** The empty page *)

(** C6. With no point, the redraw removes every cell and every marker and
    returns at once: the result is the page without elements, whatever the
    diagram primitive would compute. The reset button leads there. *)
Theorem empty_point_set_clears_page width height cellPolygon renderCell s :
  drawVoronoi width height cellPolygon renderCell (with_points s [])
  = Ok (State [] [] [] (colorDomain s) (tooltip s) (fresh s))
  /\ reset_click width height cellPolygon renderCell s
     = Ok (State [] [] [] (colorDomain s) (tooltip s) (fresh s)).
Proof. split; reflexivity. Qed.

(** ** The exported document *)

Section ExportFacts.

Lemma strip_prefix_spec p s r : strip_prefix p s = Some r <-> s = p +:+ r.
Proof.
  revert s. induction p as [|a p IH]; intros s; simpl.
  - split; [by intros [= ->]|by intros ->].
  - destruct s as [|b s]; [split; discriminate|].
    destruct (Ascii.eqb_spec a b) as [->|Hne].
    + rewrite IH. split; [by intros ->|by intros [= ->]].
    + split; [discriminate|]. intros [= ? ?]. congruence.
Qed.

Lemma skip_then_unfold needle s :
  skip_then needle s
  = match strip_prefix needle s with
    | Some _ => true
    | None =>
        match s with
        | EmptyString => false
        | String c s' => if Ascii.eqb c ">" then false else skip_then needle s'
        end
    end.
Proof. by destruct s. Qed.

Lemma skip_then_spec needle s :
  skip_then needle s = true <-> exists u v, s = u +:+ needle +:+ v /\ no_gt u.
Proof.
  split.
  - induction s as [|c s IH]; rewrite skip_then_unfold.
    + destruct (strip_prefix needle EmptyString) as [v|] eqn:Hp; [|done].
      intros _. apply strip_prefix_spec in Hp. by exists EmptyString, v.
    + destruct (strip_prefix needle (String c s)) as [v|] eqn:Hp.
      { intros _. apply strip_prefix_spec in Hp. by exists EmptyString, v. }
      destruct (Ascii.eqb_spec c ">") as [->|Hne]; [done|].
      intros H. destruct (IH H) as (u & v & -> & Hu).
      by exists (String c u), v.
  - intros (u & v & -> & Hu). induction u as [|c u IH]; rewrite skip_then_unfold.
    + change (EmptyString +:+ needle +:+ v) with (needle +:+ v).
      by rewrite (proj2 (strip_prefix_spec needle (needle +:+ v) v) eq_refl).
    + destruct Hu as [Hc Hu].
      change (String c u +:+ needle +:+ v) with (String c (u +:+ needle +:+ v)).
      destruct (strip_prefix needle (String c (u +:+ needle +:+ v))); [done|].
      destruct (Ascii.eqb_spec c ">"); [done|]. by apply IH.
Qed.

(** The regular expression finds exactly the root tags that hold the
    needle. *)
Lemma root_match_spec needle s :
  root_match needle s = true <-> RootHolds needle s.
Proof.
  unfold root_match, RootHolds. split.
  - destruct (strip_prefix "<svg" s) as [[|c rest]|] eqn:Hp; try done.
    apply strip_prefix_spec in Hp as ->.
    destruct (Ascii.eqb_spec c ">") as [->|Hne]; [done|].
    intros H. apply skip_then_spec in H as (u & v & -> & Hu).
    by exists (String c u), v.
  - intros (u & v & -> & Hne & Hu). destruct u as [|c u]; [done|].
    destruct Hu as [Hc Hu].
    change ("<svg" +:+ String c u +:+ needle +:+ v)
      with ("<svg" +:+ String c (u +:+ needle +:+ v)).
    rewrite (proj2 (strip_prefix_spec "<svg" _ (String c (u +:+ needle +:+ v))) eq_refl).
    destruct (Ascii.eqb_spec c ">"); [done|].
    apply skip_then_spec. by exists u, v.
Qed.

(** Writing the svg declaration into the root tag neither adds nor hides
    a quoted xlink URI. *)
Lemma xlink_after_svg c rest :
  c = " "%char \/ c = ">"%char \/ c = "/"%char ->
  root_match xlink_quoted ("<svg " +:+ xmlns_svg +:+ String c rest)
  = root_match xlink_quoted ("<svg" +:+ String c rest).
Proof. intros [-> | [-> | ->]]; reflexivity. Qed.

Lemma append_cons x (a b : string) : String x a +:+ b = String x (a +:+ b).
Proof. reflexivity. Qed.

Lemma append_assoc (a b c : string) : (a +:+ b) +:+ c = a +:+ b +:+ c.
Proof.
  induction a as [|x a IH]; [done|]. rewrite !append_cons. by rewrite IH.
Qed.

Lemma append_inj_l (p a b : string) : p +:+ a = p +:+ b -> a = b.
Proof.
  induction p as [|x p IH]; [done|]. rewrite !append_cons. intros [= H]. by apply IH.
Qed.

Lemma no_gt_app u w : no_gt u -> no_gt w -> no_gt (u +:+ w).
Proof.
  induction u as [|x u IH]; [done|]. rewrite append_cons. simpl.
  intros [? ?] ?. split; auto.
Qed.

Lemma RootHolds_here needle pre v :
  pre <> EmptyString -> no_gt pre ->
  RootHolds needle ("<svg" +:+ pre +:+ needle +:+ v).
Proof. intros Hne Hpre. by exists pre, v. Qed.

Lemma RootHolds_pre needle pre rest :
  no_gt pre ->
  RootHolds needle ("<svg" +:+ rest) -> RootHolds needle ("<svg" +:+ pre +:+ rest).
Proof.
  intros Hpre (u & v & Heq & Hne & Hu). apply append_inj_l in Heq as ->.
  exists (pre +:+ u), v. split; [|split].
  - by rewrite append_assoc.
  - destruct pre; [done|discriminate].
  - by apply no_gt_app.
Qed.

Lemma RootDeclares_here needle v :
  RootDeclares needle ("<svg" +:+ " " +:+ needle +:+ v).
Proof. by exists EmptyString, v. Qed.

Lemma RootDeclares_pre needle pre rest :
  no_gt pre ->
  RootDeclares needle ("<svg" +:+ rest) -> RootDeclares needle ("<svg" +:+ pre +:+ rest).
Proof.
  intros Hpre (u & v & Heq & Hu). apply append_inj_l in Heq as ->.
  exists (pre +:+ u), v. split; [by rewrite append_assoc|by apply no_gt_app].
Qed.

Lemma occurs_unfold needle s :
  occurs needle s
  = match strip_prefix needle s with
    | Some _ => true
    | None =>
        match s with
        | EmptyString => false
        | String _ s' => occurs needle s'
        end
    end.
Proof. by destruct s. Qed.

Lemma occurs_intro needle u v : occurs needle (u +:+ needle +:+ v) = true.
Proof.
  induction u as [|c u IH]; rewrite occurs_unfold.
  - change (EmptyString +:+ needle +:+ v) with (needle +:+ v).
    by rewrite (proj2 (strip_prefix_spec needle (needle +:+ v) v) eq_refl).
  - change (String c u +:+ needle +:+ v) with (String c (u +:+ needle +:+ v)).
    by destruct (strip_prefix needle (String c (u +:+ needle +:+ v))).
Qed.

Lemma RootDeclares_occurs needle s :
  RootDeclares needle s -> occurs (" " +:+ needle) s = true.
Proof.
  intros (u & v & -> & _).
  rewrite <- (append_assoc "<svg" u), <- (append_assoc " " needle v).
  apply occurs_intro.
Qed.

(** C9, the claim as it stands, fails: here is the serialisation of a
    surface whose root tag quotes the xlink URI as the value of another
    attribute. The script takes the declaration to be present and writes
    nothing: the exported document is the declaration and the source, and
    it holds no [xmlns:] attribute, no default declaration of the xlink
    namespace, and so no declaration of that namespace at all. *)
Lemma export_without_xlink_declaration :
  let source :=
    "<svg xmlns=" +:+ quoted svg_uri +:+ " id=" +:+ quoted "voronoiCanvas"
    +:+ " data-ns=" +:+ xlink_quoted
    +:+ " width=" +:+ quoted "800" +:+ " height=" +:+ quoted "600"
    +:+ "><g></g><g></g></svg>" in
  svg_root source
  /\ exportDocument source = xml_declaration +:+ source
  /\ occurs "xmlns:" (exportDocument source) = false
  /\ occurs ("xmlns=" +:+ xlink_quoted) (exportDocument source) = false
  /\ ~ RootDeclares xmlns_xlink source.
Proof.
  intros source. split; [|split; [|split; [|split]]].
  - exists " "%char,
      ("xmlns=" +:+ quoted svg_uri +:+ " id=" +:+ quoted "voronoiCanvas"
       +:+ " data-ns=" +:+ xlink_quoted
       +:+ " width=" +:+ quoted "800" +:+ " height=" +:+ quoted "600"
       +:+ "><g></g><g></g></svg>").
    split; [reflexivity|by left].
  - vm_compute. reflexivity.
  - vm_compute. reflexivity.
  - vm_compute. reflexivity.
  - intros Hdecl. apply RootDeclares_occurs in Hdecl.
    vm_compute in Hdecl. discriminate.
Qed.

(** C9, amended. For the serialisation of the surface, the exported text
    begins with the XML declaration, followed by the source with nothing
    but namespace declarations written into its root tag, right after
    [<svg]. The declaration of the SVG namespace is written in exactly
    when the root tag of the source does not hold the text
    [xmlns="http://www.w3.org/2000/svg"], and the [xmlns:xlink]
    declaration exactly when the root tag does not hold the quoted xlink
    URI, under whatever attribute name; so a source that declares them is
    given no second declaration. The root tag of the result always holds
    both texts; and it declares each namespace in an attribute of its own
    wherever the source, if it holds the text at all, holds it in such an
    attribute. *)
Theorem export_declares_namespaces source :
  svg_root source ->
  exists rest S X,
    source = "<svg" +:+ rest
    /\ exportDocument source = xml_declaration +:+ "<svg" +:+ X +:+ S +:+ rest
    /\ (RootHolds xmlns_svg source -> S = EmptyString)
    /\ (~ RootHolds xmlns_svg source -> S = " " +:+ xmlns_svg)
    /\ (RootHolds xlink_quoted source -> X = EmptyString)
    /\ (~ RootHolds xlink_quoted source -> X = " " +:+ xmlns_xlink)
    /\ RootHolds xmlns_svg ("<svg" +:+ X +:+ S +:+ rest)
    /\ RootHolds xlink_quoted ("<svg" +:+ X +:+ S +:+ rest)
    /\ ((RootHolds xmlns_svg source -> RootDeclares xmlns_svg source) ->
        RootDeclares xmlns_svg ("<svg" +:+ X +:+ S +:+ rest))
    /\ ((RootHolds xlink_quoted source -> RootDeclares xmlns_xlink source) ->
        RootDeclares xmlns_xlink ("<svg" +:+ X +:+ S +:+ rest)).
Proof.
  intros (c & rest & -> & Hc). exists (String c rest).
  pose proof (root_match_spec xmlns_svg ("<svg" +:+ String c rest)) as H1.
  pose proof (root_match_spec xlink_quoted ("<svg" +:+ String c rest)) as H2.
  unfold exportDocument.
  destruct (root_match xmlns_svg ("<svg" +:+ String c rest)) eqn:E1.
  - destruct (root_match xlink_quoted ("<svg" +:+ String c rest)) eqn:E2.
    + exists EmptyString, EmptyString.
      split; [done|]. split; [reflexivity|]. split; [done|].
      split; [intros Hn; destruct Hn; by apply H1|]. split; [done|].
      split; [intros Hn; destruct Hn; by apply H2|].
      split; [by apply H1|]. split; [by apply H2|]. split.
      * intros Hdecl. apply Hdecl. by apply H1.
      * intros Hdecl. apply Hdecl. by apply H2.
    + exists EmptyString, (" " +:+ xmlns_xlink).
      split; [done|]. split; [reflexivity|]. split; [done|].
      split; [intros Hn; destruct Hn; by apply H1|].
      split; [intros Hn; apply H2 in Hn; done|]. split; [done|].
      split; [|split; [|split]].
      * apply (RootHolds_pre xmlns_svg (" " +:+ xmlns_xlink)).
        { vm_compute. repeat split; discriminate. }
        by apply H1.
      * by apply (RootHolds_here xlink_quoted " xmlns:xlink=" (String c rest)).
      * intros Hdecl.
        apply (RootDeclares_pre xmlns_svg (" " +:+ xmlns_xlink)).
        { vm_compute. repeat split; discriminate. }
        apply Hdecl. by apply H1.
      * intros _. apply (RootDeclares_here xmlns_xlink (String c rest)).
  - assert (replace_svg ("<svg " +:+ xmlns_svg) ("<svg" +:+ String c rest)
            = "<svg " +:+ xmlns_svg +:+ String c rest) as -> by reflexivity.
    rewrite xlink_after_svg by done.
    destruct (root_match xlink_quoted ("<svg" +:+ String c rest)) eqn:E2.
    + exists (" " +:+ xmlns_svg), EmptyString.
      split; [done|]. split; [reflexivity|].
      split; [intros Hn; apply H1 in Hn; done|]. split; [done|]. split; [done|].
      split; [intros Hn; destruct Hn; by apply H2|].
      split; [|split; [|split]].
      * by apply (RootHolds_here xmlns_svg " " (String c rest)).
      * apply (RootHolds_pre xlink_quoted (" " +:+ xmlns_svg)).
        { vm_compute. repeat split; discriminate. }
        by apply H2.
      * intros _. apply (RootDeclares_here xmlns_svg (String c rest)).
      * intros Hdecl.
        apply (RootDeclares_pre xmlns_xlink (" " +:+ xmlns_svg)).
        { vm_compute. repeat split; discriminate. }
        apply Hdecl. by apply H2.
    + exists (" " +:+ xmlns_svg), (" " +:+ xmlns_xlink).
      split; [done|]. split; [reflexivity|].
      split; [intros Hn; apply H1 in Hn; done|]. split; [done|].
      split; [intros Hn; apply H2 in Hn; done|]. split; [done|].
      split; [|split; [|split]].
      * apply (RootHolds_pre xmlns_svg (" " +:+ xmlns_xlink)).
        { vm_compute. repeat split; discriminate. }
        by apply (RootHolds_here xmlns_svg " " (String c rest)).
      * by apply (RootHolds_here xlink_quoted " xmlns:xlink="
                    (" " +:+ xmlns_svg +:+ String c rest)).
      * intros _.
        apply (RootDeclares_pre xmlns_svg (" " +:+ xmlns_xlink)).
        { vm_compute. repeat split; discriminate. }
        apply (RootDeclares_here xmlns_svg (String c rest)).
      * intros _.
        apply (RootDeclares_here xmlns_xlink (" " +:+ xmlns_svg +:+ String c rest)).
Qed.

End ExportFacts.

(** ** More on the area of a polygon *)

Section PolygonArea.
Local Open Scope Q_scope.

Lemma loop_path b (l : polygon) acc :
  polygonArea_loop b l acc == acc + path_sum (b :: l).
Proof.
  revert b acc. induction l as [|x l IH]; intros b acc.
  - cbn [polygonArea_loop path_sum]. ring.
  - change (polygonArea_loop b (x :: l) acc)
      with (polygonArea_loop x l (acc + cross b x)).
    rewrite IH.
    change (path_sum (b :: x :: l)) with (cross b x + path_sum (x :: l)).
    ring.
Qed.

Lemma List_last_default {A} (l : list A) d : List.last l d = default d (last l).
Proof.
  induction l as [|a [|b l] IH]; [done|done|].
  rewrite last_cons_cons. exact IH.
Qed.

Lemma polygonArea_path (pg : polygon) :
  polygonArea pg == path_sum (default (0, 0) (last pg) :: pg) / 2.
Proof.
  unfold polygonArea. rewrite loop_path, List_last_default.
  rewrite Qplus_0_l. reflexivity.
Qed.

(** X13. A polygon of fewer than three vertices has the area 0. *)
Theorem calculateArea_of_degenerate_polygon (pg : polygon) :
  (length pg < 3)%nat ->
  exists a, calculateArea (Some pg) = Ok a /\ a == 0.
Proof.
  intros Hlen. exists (Qabs (polygonArea pg)). split; [reflexivity|].
  assert (polygonArea pg == 0) as ->; [|reflexivity].
  rewrite polygonArea_path.
  destruct pg as [|a [|b [|c l]]]; simpl in Hlen; try lia.
  - simpl. unfold Qdiv. ring.
  - simpl. unfold cross, Qdiv. ring.
  - simpl. unfold cross, Qdiv. ring.
Qed.

End PolygonArea.

(** ** More on the exported document *)

Section ExportMore.

(** X15. A text that does not begin with [<svg] gets no namespace written
    in: it is exported as it is, behind the XML declaration. *)
Theorem export_of_other_text source :
  (forall rest, source <> "<svg" +:+ rest) ->
  exportDocument source = xml_declaration +:+ source.
Proof.
  intros Hno.
  assert (strip_prefix "<svg" source = None) as Hnone.
  { destruct (strip_prefix "<svg" source) as [rest|] eqn:Hp; [|done].
    apply strip_prefix_spec in Hp. by destruct (Hno rest). }
  unfold exportDocument, root_match, replace_svg. by rewrite !Hnone.
Qed.

Lemma export_body source :
  svg_root source ->
  exists body,
    exportDocument source = xml_declaration +:+ body
    /\ RootHolds xmlns_svg body /\ RootHolds xlink_quoted body.
Proof.
  intros (c & rest & -> & Hc).
  pose proof (root_match_spec xmlns_svg ("<svg" +:+ String c rest)) as H1.
  pose proof (root_match_spec xlink_quoted ("<svg" +:+ String c rest)) as H2.
  unfold exportDocument.
  destruct (root_match xmlns_svg ("<svg" +:+ String c rest)) eqn:E1.
  - destruct (root_match xlink_quoted ("<svg" +:+ String c rest)) eqn:E2.
    + eexists. split; [reflexivity|]. split; [by apply H1|by apply H2].
    + exists ("<svg" +:+ (" " +:+ xmlns_xlink) +:+ String c rest).
      split; [reflexivity|]. split.
      * apply RootHolds_pre; [vm_compute; repeat split; discriminate|by apply H1].
      * by apply (RootHolds_here xlink_quoted " xmlns:xlink=" (String c rest)).
  - assert (replace_svg ("<svg " +:+ xmlns_svg) ("<svg" +:+ String c rest)
            = "<svg " +:+ xmlns_svg +:+ String c rest) as -> by reflexivity.
    rewrite xlink_after_svg by done.
    destruct (root_match xlink_quoted ("<svg" +:+ String c rest)) eqn:E2.
    + exists ("<svg" +:+ (" " +:+ xmlns_svg) +:+ String c rest).
      split; [reflexivity|]. split.
      * by apply (RootHolds_here xmlns_svg " " (String c rest)).
      * apply RootHolds_pre; [vm_compute; repeat split; discriminate|by apply H2].
    + exists ("<svg" +:+ (" " +:+ xmlns_xlink) +:+ (" " +:+ xmlns_svg) +:+ String c rest).
      split; [reflexivity|]. split.
      * apply RootHolds_pre; [vm_compute; repeat split; discriminate|].
        by apply (RootHolds_here xmlns_svg " " (String c rest)).
      * by apply (RootHolds_here xlink_quoted " xmlns:xlink="
                    (" " +:+ xmlns_svg +:+ String c rest)).
Qed.

(** X16. Nothing is left to add to an exported document: exporting the
    text that follows its XML declaration gives back the same
    document. *)
Theorem export_is_complete source :
  svg_root source ->
  exists body,
    exportDocument source = xml_declaration +:+ body
    /\ exportDocument body = xml_declaration +:+ body.
Proof.
  intros Hroot. destruct (export_body source Hroot) as (body & Hdoc & Hsvg & Hxlink).
  exists body. split; [done|].
  apply root_match_spec in Hsvg, Hxlink.
  unfold exportDocument. by rewrite Hsvg, Hxlink.
Qed.

End ExportMore.

(** ** The theorems at work on a page of 800 by 600 *)

Section Instances.
Local Open Scope Q_scope.

Lemma single_point_fills_rectangle_witness :
  exists s' el a,
    drawVoronoi 800 600 sample_cellPolygon sample_renderCell
                (with_points loaded [(10, 10)]) = Ok s'
    /\ cellLayer s' = [el]
    /\ sample_cellPolygon [(10, 10)] (bounds 800 600) (d_index (el_data el))
       = Some (box 0 0 800 600)
    /\ cellAreas 800 600 sample_cellPolygon [(10, 10)] = Ok [a]
    /\ a == 800 * 600
    /\ fillArgument [a] 0 = Some 1
    /\ attr_fill el = Some (colorInterpolator (Some 1))
    /\ hue (colorInterpolator (Some 1)) = Some 120.
Proof.
  apply (single_point_fills_rectangle 800 600 sample_cellPolygon sample_renderCell
           loaded (10, 10)).
  - vm_compute. discriminate.
  - vm_compute. discriminate.
  - intros [x y] _. reflexivity.
  - unfold inside. simpl. repeat split; vm_compute; discriminate.
  - apply reach_init. reflexivity.
Defined.

Lemma equal_areas_one_colour_witness :
  exists s',
    drawVoronoi 800 600 sample_cellPolygon sample_renderCell
                (with_points loaded [(200, 300); (600, 300)]) = Ok s'
    /\ length (cellLayer s') = 2%nat
    /\ (forall i,
          fillArgument (areasOf 800 600 sample_cellPolygon [(200, 300); (600, 300)]) i
          = Some 1)
    /\ (forall el, el ∈ cellLayer s' ->
                   attr_fill el = Some (colorInterpolator (Some 1))).
Proof.
  apply (equal_areas_one_colour 800 600 sample_cellPolygon sample_renderCell
           loaded [(200, 300); (600, 300)]).
  - apply reach_init. reflexivity.
  - discriminate.
  - reflexivity.
  - intros a b Ha Hb.
    apply list_elem_of_In in Ha, Hb. simpl in Ha, Hb.
    destruct Ha as [<-|[<-|[]]], Hb as [<-|[<-|[]]]; reflexivity.
Defined.

Lemma interpolator_argument_in_unit_interval_witness :
  exists s' areas,
    drawVoronoi 800 600 sample_cellPolygon sample_renderCell
                (with_points loaded [(100, 300); (600, 300)]) = Ok s'
    /\ cellAreas 800 600 sample_cellPolygon [(100, 300); (600, 300)] = Ok areas
    /\ forall i el, cellLayer s' !! i = Some el ->
        exists v u,
          attr_fill el = Some (colorInterpolator (fillArgument areas i))
          /\ fillArgument areas i = Some v /\ 0 <= v /\ v <= 1
          /\ colorScale (colorDomain s') (areas !! i) = Some u /\ 0 <= u /\ u <= 1.
Proof.
  apply (interpolator_argument_in_unit_interval 800 600 sample_cellPolygon
           sample_renderCell loaded [(100, 300); (600, 300)]).
  apply reach_init. reflexivity.
Defined.

Lemma hover_raises_TypeError_witness :
  exists s,
    dispatch_click 800 600 sample_cellPolygon sample_renderCell OnSvg (10, 10) loaded
    = Ok s
    /\ is_Some (cellLayer s !! 0%nat)
    /\ dispatch_mouseover 0 s = Throw TypeError.
Proof.
  eexists. split; [vm_compute; reflexivity|]. split; [by eexists|].
  eapply (hover_raises_TypeError 800 600 sample_cellPolygon sample_renderCell).
  - apply (reach_click 800 600 sample_cellPolygon sample_renderCell loaded OnSvg (10, 10)).
    + apply reach_init. reflexivity.
    + vm_compute. reflexivity.
  - reflexivity.
Defined.

Lemma degenerate_cell_has_area_zero_witness :
  exists s' areas mn mx,
    drawVoronoi 800 600 sample_cellPolygon sample_renderCell
                (with_points loaded [(10, 10); (10, 10)]) = Ok s'
    /\ cellAreas 800 600 sample_cellPolygon [(10, 10); (10, 10)] = Ok areas
    /\ areas !! 1%nat = Some 0
    /\ d3_min areas = Some mn /\ d3_max areas = Some mx
    /\ mn == 0 /\ 0 <= mx
    /\ fst (colorDomain s') = Some mn.
Proof.
  apply (degenerate_cell_has_area_zero 800 600 sample_cellPolygon sample_renderCell
           loaded [(10, 10); (10, 10)] 1).
  - apply reach_init. reflexivity.
  - simpl. lia.
  - reflexivity.
Defined.

Lemma marker_click_only_removes_witness :
  exists s el,
    dispatch_click 800 600 sample_cellPolygon sample_renderCell OnSvg (10, 10) loaded
    = Ok s
    /\ pointLayer s !! 0%nat = Some el
    /\ exists s' p,
        dispatch_click 800 600 sample_cellPolygon sample_renderCell
                       (OnMarker 0) (10, 10) s = Ok s'
        /\ points s !! 0%nat = Some p
        /\ attr_cx el = Some (fst p) /\ attr_cy el = Some (snd p)
        /\ points s' = take 0 (points s) ++ drop 1 (points s)
        /\ S (length (points s')) = length (points s).
Proof.
  eexists. eexists. split; [vm_compute; reflexivity|]. split; [reflexivity|].
  apply (marker_click_only_removes 800 600 sample_cellPolygon sample_renderCell).
  - apply (reach_click 800 600 sample_cellPolygon sample_renderCell loaded OnSvg (10, 10)).
    + apply reach_init. reflexivity.
    + vm_compute. reflexivity.
  - reflexivity.
Defined.

Lemma add_then_remove_restores_witness :
  exists s,
    dispatch_click 800 600 sample_cellPolygon sample_renderCell OnSvg (100, 300) loaded
    = Ok s
    /\ is_Some (cellLayer s !! 0%nat) /\ is_Some (pointLayer s !! 0%nat)
    /\ hits_background s (OnCell 0)
    /\ exists s1 s2,
        dispatch_click 800 600 sample_cellPolygon sample_renderCell
                       (OnCell 0) (600, 300) s = Ok s1
        /\ points s1 = points s ++ [(600, 300)]
        /\ dispatch_click 800 600 sample_cellPolygon sample_renderCell
                          (OnMarker (length (points s))) (600, 300) s1 = Ok s2
        /\ points s2 = points s
        /\ cellLayer s2 = cellLayer s
        /\ pointLayer s2 = pointLayer s.
Proof.
  eexists. split; [vm_compute; reflexivity|].
  split; [by eexists|]. split; [by eexists|]. split; [simpl; lia|].
  match goal with
  | |- context [dispatch_click _ _ _ _ (OnCell 0) _ ?s] =>
      apply (add_then_remove_restores 800 600 sample_cellPolygon sample_renderCell
               s (OnCell 0) (600, 300) (600, 300))
  end.
  - apply (reach_click 800 600 sample_cellPolygon sample_renderCell loaded OnSvg (100, 300)).
    + apply reach_init. reflexivity.
    + vm_compute. reflexivity.
  - simpl. lia.
Defined.

Lemma add_keeps_existing_elements_witness :
  exists s,
    dispatch_click 800 600 sample_cellPolygon sample_renderCell OnSvg (100, 300) loaded
    = Ok s
    /\ hits_background s (OnCell 0)
    /\ exists s' updc updm areas',
        dispatch_click 800 600 sample_cellPolygon sample_renderCell (OnCell 0) (600, 300) s
        = Ok s'
        /\ points s' = points s ++ [(600, 300)]
        /\ bindKey (cellLayer s) (pointsWithIndex (points s ++ [(600, 300)]))
           = ((Some <$> updc) ++ [None],
              replicate 1 None ++ [Some (Datum (600, 300) 1)], replicate 1 None)
        /\ el_id <$> updc = el_id <$> cellLayer s
        /\ bindKey (pointLayer s) (pointsWithIndex (points s ++ [(600, 300)]))
           = ((Some <$> updm) ++ [None],
              replicate 1 None ++ [Some (Datum (600, 300) 1)], replicate 1 None)
        /\ el_id <$> updm = el_id <$> pointLayer s
        /\ el_id <$> cellLayer s' = (el_id <$> cellLayer s) ++ [fresh s]
        /\ el_id <$> pointLayer s' = (el_id <$> pointLayer s) ++ [S (fresh s)]
        /\ (fresh s ∉ (el_id <$> cellLayer s))
        /\ (S (fresh s) ∉ (el_id <$> pointLayer s))
        /\ (fun el => key (el_data el)) <$> cellLayer s = seq 0 1
        /\ (fun el => key (el_data el)) <$> cellLayer s' = seq 0 2
        /\ (fun el => key (el_data el)) <$> pointLayer s = seq 0 1
        /\ (fun el => key (el_data el)) <$> pointLayer s' = seq 0 2
        /\ cellAreas 800 600 sample_cellPolygon (points s') = Ok areas'
        /\ (forall j el, cellLayer s !! j = Some el ->
              exists el',
                cellLayer s' !! j = Some el'
                /\ el_id el' = el_id el /\ el_tag el' = el_tag el
                /\ el_data el' = el_data el
                /\ attr_d el' = sample_renderCell (points s') (bounds 800 600) j
                /\ attr_fill el' = Some (fill areas' j)
                /\ attr_stroke el' = Some "#000"%string
                /\ on_mouseover el' = Some areas'
                /\ on_mousemove el' = true /\ on_mouseout el' = true)
        /\ (exists el',
              cellLayer s' !! 1%nat = Some el'
              /\ el_id el' = fresh s /\ el_tag el' = TagPath
              /\ el_data el' = Datum (600, 300) 1
              /\ attr_d el' = sample_renderCell (points s') (bounds 800 600) 1
              /\ attr_fill el' = Some (fill areas' 1)
              /\ attr_stroke el' = Some "#000"%string
              /\ on_mouseover el' = Some areas'
              /\ on_mousemove el' = true /\ on_mouseout el' = true)
        /\ (forall j el, pointLayer s !! j = Some el ->
              exists el',
                pointLayer s' !! j = Some el'
                /\ el_id el' = el_id el /\ el_tag el' = el_tag el
                /\ el_data el' = el_data el
                /\ attr_cx el' = Some (fst (d_point (el_data el)))
                /\ attr_cy el' = Some (snd (d_point (el_data el)))
                /\ attr_r el' = attr_r el /\ on_click el' = on_click el)
        /\ (exists el',
              pointLayer s' !! 1%nat = Some el'
              /\ el_id el' = S (fresh s) /\ el_tag el' = TagCircle
              /\ el_data el' = Datum (600, 300) 1
              /\ attr_cx el' = Some (fst (600, 300)) /\ attr_cy el' = Some (snd (600, 300))
              /\ attr_r el' = Some 5 /\ on_click el' = true).
Proof.
  eexists. split; [vm_compute; reflexivity|]. split; [simpl; lia|].
  match goal with
  | |- context [dispatch_click _ _ _ _ (OnCell 0) _ ?s] =>
      apply (add_keeps_existing_elements 800 600 sample_cellPolygon sample_renderCell
               s (OnCell 0) (600, 300))
  end.
  - apply (reach_click 800 600 sample_cellPolygon sample_renderCell loaded OnSvg (100, 300)).
    + apply reach_init. reflexivity.
    + vm_compute. reflexivity.
  - simpl. lia.
Defined.

Lemma export_declares_namespaces_witness :
  let source := "<svg xmlns=" +:+ quoted svg_uri +:+ " id=" +:+ quoted "voronoiCanvas"
                +:+ " width=" +:+ quoted "800" +:+ " height=" +:+ quoted "600"
                +:+ "><g></g><g></g></svg>" in
  exists rest S X,
    source = "<svg" +:+ rest
    /\ exportDocument source = xml_declaration +:+ "<svg" +:+ X +:+ S +:+ rest
    /\ (RootHolds xmlns_svg source -> S = EmptyString)
    /\ (~ RootHolds xmlns_svg source -> S = " " +:+ xmlns_svg)
    /\ (RootHolds xlink_quoted source -> X = EmptyString)
    /\ (~ RootHolds xlink_quoted source -> X = " " +:+ xmlns_xlink)
    /\ RootHolds xmlns_svg ("<svg" +:+ X +:+ S +:+ rest)
    /\ RootHolds xlink_quoted ("<svg" +:+ X +:+ S +:+ rest)
    /\ ((RootHolds xmlns_svg source -> RootDeclares xmlns_svg source) ->
        RootDeclares xmlns_svg ("<svg" +:+ X +:+ S +:+ rest))
    /\ ((RootHolds xlink_quoted source -> RootDeclares xmlns_xlink source) ->
        RootDeclares xmlns_xlink ("<svg" +:+ X +:+ S +:+ rest)).
Proof.
  apply export_declares_namespaces.
  exists " "%char,
    ("xmlns=" +:+ quoted svg_uri +:+ " id=" +:+ quoted "voronoiCanvas"
     +:+ " width=" +:+ quoted "800" +:+ " height=" +:+ quoted "600"
     +:+ "><g></g><g></g></svg>").
  split; [reflexivity|by left].
Defined.

Lemma redraw_changes_nothing_witness :
  exists s,
    dispatch_click 800 600 sample_cellPolygon sample_renderCell OnSvg (10, 10) loaded
    = Ok s
    /\ drawVoronoi 800 600 sample_cellPolygon sample_renderCell s = Ok s.
Proof.
  eexists. split; [vm_compute; reflexivity|].
  apply redraw_changes_nothing.
  apply (reach_click 800 600 sample_cellPolygon sample_renderCell loaded OnSvg (10, 10)).
  - apply reach_init. reflexivity.
  - vm_compute. reflexivity.
Defined.

Lemma page_shows_points_witness :
  exists s,
    dispatch_click 800 600 sample_cellPolygon sample_renderCell OnSvg (10, 10) loaded
    = Ok s
    /\ length (cellLayer s) = length (points s)
    /\ length (pointLayer s) = length (points s)
    /\ forall k p, points s !! k = Some p ->
        exists path circle areas,
          cellAreas 800 600 sample_cellPolygon (points s) = Ok areas
          /\ cellLayer s !! k = Some path /\ pointLayer s !! k = Some circle
          /\ el_tag path = TagPath /\ el_data path = Datum p k
          /\ attr_d path = sample_renderCell (points s) (bounds 800 600) k
          /\ attr_fill path = Some (fill areas k)
          /\ attr_stroke path = Some "#000"%string
          /\ el_tag circle = TagCircle /\ el_data circle = Datum p k
          /\ attr_cx circle = Some (fst p) /\ attr_cy circle = Some (snd p)
          /\ attr_r circle = Some 5
          /\ on_click circle = true.
Proof.
  eexists. split; [vm_compute; reflexivity|].
  apply (page_shows_points 800 600 sample_cellPolygon sample_renderCell).
  apply (reach_click 800 600 sample_cellPolygon sample_renderCell loaded OnSvg (10, 10)).
  - apply reach_init. reflexivity.
  - vm_compute. reflexivity.
Defined.

Lemma tooltip_never_shown_witness :
  exists s,
    dispatch_click 800 600 sample_cellPolygon sample_renderCell OnSvg (10, 10) loaded
    = Ok s
    /\ tt_visibility (tooltip (dispatch_mousemove 0 300 200 s)) = "hidden"%string
    /\ tt_text (tooltip (dispatch_mousemove 0 300 200 s)) = ""%string.
Proof.
  eexists. split; [vm_compute; reflexivity|].
  apply (tooltip_never_shown 800 600 sample_cellPolygon sample_renderCell).
  apply reach_mousemove.
  apply (reach_click 800 600 sample_cellPolygon sample_renderCell loaded OnSvg (10, 10)).
  - apply reach_init. reflexivity.
  - vm_compute. reflexivity.
Defined.


Lemma stale_index_removes_nothing_witness :
  exists s1 s,
    dispatch_click 800 600 sample_cellPolygon sample_renderCell OnSvg (100, 300) loaded
    = Ok s1
    /\ dispatch_click 800 600 sample_cellPolygon sample_renderCell OnSvg (600, 300) s1
       = Ok s
    /\ length (points s) = 2%nat /\ length (pointLayer s) = 2%nat
    /\ circle_click 800 600 sample_cellPolygon sample_renderCell
                    (ClickEvent "circle" (600, 300) false) (Datum (600, 300) 2) s
       = Ok (stopPropagation (ClickEvent "circle" (600, 300) false), s).
Proof.
  eexists. eexists.
  split; [vm_compute; reflexivity|]. split; [vm_compute; reflexivity|].
  split; [reflexivity|]. split; [reflexivity|].
  apply stale_index_removes_nothing.
  - eapply (reach_click 800 600 sample_cellPolygon sample_renderCell _ OnSvg (600, 300)).
    + apply (reach_click 800 600 sample_cellPolygon sample_renderCell
               loaded OnSvg (100, 300)).
      * apply reach_init. reflexivity.
      * vm_compute. reflexivity.
    + vm_compute. reflexivity.
  - simpl. lia.
Defined.

Lemma marker_click_drops_last_elements_witness :
  exists s1 s el,
    dispatch_click 800 600 sample_cellPolygon sample_renderCell OnSvg (100, 300) loaded
    = Ok s1
    /\ dispatch_click 800 600 sample_cellPolygon sample_renderCell OnSvg (600, 300) s1
       = Ok s
    /\ pointLayer s !! 0%nat = Some el
    /\ exists s',
        dispatch_click 800 600 sample_cellPolygon sample_renderCell
                       (OnMarker 0) (100, 300) s = Ok s'
        /\ el_id <$> cellLayer s'
           = take (pred (length (points s))) (el_id <$> cellLayer s)
        /\ el_id <$> pointLayer s'
           = take (pred (length (points s))) (el_id <$> pointLayer s)
        /\ forall j el',
            pointLayer s' !! j = Some el' ->
            d_index (el_data el') = j
            /\ points s !! (if decide (j < 0)%nat then j else S j)
               = Some (d_point (el_data el')).
Proof.
  eexists. eexists. eexists.
  split; [vm_compute; reflexivity|]. split; [vm_compute; reflexivity|].
  split; [reflexivity|].
  eapply (marker_click_drops_last_elements 800 600 sample_cellPolygon sample_renderCell).
  - eapply (reach_click 800 600 sample_cellPolygon sample_renderCell _ OnSvg (600, 300)).
    + apply (reach_click 800 600 sample_cellPolygon sample_renderCell
               loaded OnSvg (100, 300)).
      * apply reach_init. reflexivity.
      * vm_compute. reflexivity.
    + vm_compute. reflexivity.
  - reflexivity.
Defined.

Lemma fills_stay_on_the_ramp_witness :
  exists s,
    dispatch_click 800 600 sample_cellPolygon sample_renderCell OnSvg (10, 10) loaded
    = Ok s
    /\ is_Some (cellLayer s !! 0%nat)
    /\ forall el, el ∈ cellLayer s ->
        exists h,
          attr_fill el = Some (Hsl (Some h) (Some (60 / 100)) (Some (70 / 100)))
          /\ 0 <= h /\ h <= 120.
Proof.
  eexists. split; [vm_compute; reflexivity|]. split; [by eexists|].
  intros el Hel.
  eapply (fills_stay_on_the_ramp 800 600 sample_cellPolygon sample_renderCell);
    [|exact Hel].
  apply (reach_click 800 600 sample_cellPolygon sample_renderCell loaded OnSvg (10, 10)).
  - apply reach_init. reflexivity.
  - vm_compute. reflexivity.
Defined.

Lemma larger_area_higher_hue_witness :
  exists hi hj,
    hue (fill [210000; 270000] 0) = Some hi
    /\ hue (fill [210000; 270000] 1) = Some hj /\ hi <= hj.
Proof.
  apply (larger_area_higher_hue [210000; 270000] 0 1 210000 270000).
  - reflexivity.
  - reflexivity.
  - vm_compute. discriminate.
Defined.

Lemma extreme_areas_get_end_hues_witness :
  (forall i a, [210000; 270000] !! i = Some a -> a == 210000 ->
               exists h, hue (fill [210000; 270000] i) = Some h /\ h == 0)
  /\ (forall i a, [210000; 270000] !! i = Some a -> a == 270000 ->
                  exists h, hue (fill [210000; 270000] i) = Some h /\ h == 120).
Proof.
  apply (extreme_areas_get_end_hues [210000; 270000] 210000 270000).
  - reflexivity.
  - reflexivity.
  - vm_compute. reflexivity.
Defined.


Lemma calculateArea_of_degenerate_polygon_witness :
  exists a, calculateArea (Some [(0, 0); (30, 40)]) = Ok a /\ a == 0.
Proof.
  apply calculateArea_of_degenerate_polygon. simpl. lia.
Defined.

Lemma export_of_other_text_witness :
  exportDocument "<g></g>" = xml_declaration +:+ "<g></g>".
Proof.
  apply export_of_other_text.
  intros rest H. apply strip_prefix_spec in H. vm_compute in H. discriminate.
Defined.

Lemma export_is_complete_witness :
  let source := "<svg xmlns=" +:+ quoted svg_uri +:+ " id=" +:+ quoted "voronoiCanvas"
                +:+ " width=" +:+ quoted "800" +:+ " height=" +:+ quoted "600"
                +:+ "><g></g><g></g></svg>" in
  exists body,
    exportDocument source = xml_declaration +:+ body
    /\ exportDocument body = xml_declaration +:+ body.
Proof.
  apply export_is_complete.
  exists " "%char,
    ("xmlns=" +:+ quoted svg_uri +:+ " id=" +:+ quoted "voronoiCanvas"
     +:+ " width=" +:+ quoted "800" +:+ " height=" +:+ quoted "600"
     +:+ "><g></g><g></g></svg>").
  split; [reflexivity|by left].
Defined.

End Instances.
